(** * GWAS workshop notebook (2_GWAS.ipynb): data preparation and result tables

    A shallow embedding of the code cells of [2_GWAS.ipynb]: loading the
    phenotype table, aligning phenotype / genotype / kinship data on the
    accessions, the minor-allele-frequency filter, the manual input checks,
    and the two cells that write the result tables.  The association scan
    itself ([limix.qtl.scan]) is an external library call: its p-values and
    effect sizes enter the model as inputs.

    Conventions.
    - Accession identifiers are byte strings ([string]).
    - Python floats that are only moved around (trait values, kinship
      entries, p-values, effect sizes) and the frequencies [MAC / n] are
      modelled by [pyfloat]: NaN, an infinity, or an exact rational; the
      quotient of two integers is the exact quotient, and [>=] compares
      the rationals.
    - numpy integer sums are modelled in [Z] (the row sums of an int8 matrix
      are accumulated in 64-bit integers; no wrap-around is modelled).
    - A Python exception is a value of [exn]; a cell that may raise returns
      in the monad [py]. *)

From Stdlib Require Import QArith.
From stdpp Require Import base list sorting strings pretty.
From Equations Require Import Equations.

Open Scope string_scope.
Open Scope list_scope.
Open Scope Z_scope.

(** ** Python exceptions *)

Inductive exn : Type :=
  | KeyError
  | IndexError
  | TypeError
  | AttributeError
  | ValueError (msg : string).

Inductive py (A : Type) : Type :=
  | Ok (a : A)
  | Raise (e : exn).
Arguments Ok {A} a.
Arguments Raise {A} e.

Definition py_bind {A B : Type} (f : A → py B) (m : py A) : py B :=
  match m with
  | Ok a => f a
  | Raise e => Raise e
  end.

#[global] Instance py_mret : MRet py := λ A a, Ok a.
#[global] Instance py_mbind : MBind py := λ A B f m, py_bind f m.

(** [[f x for x in l]] where [f] may raise: the first exception wins. *)
Fixpoint py_for {A B : Type} (f : A → py B) (l : list A) : py (list B) :=
  match l with
  | [] => Ok []
  | x :: l' =>
      match f x with
      | Ok y =>
          match py_for f l' with
          | Ok ys => Ok (y :: ys)
          | Raise e => Raise e
          end
      | Raise e => Raise e
      end
  end.

(** ** Data model *)

Inductive pyfloat : Type :=
  | NaN
  | Inf (negative : bool)
  | Fin (q : Q).

Definition isna (v : pyfloat) : bool :=
  match v with
  | NaN => true
  | _ => false
  end.

(** A one-column data frame: the index label and the trait value of every
    row, in row order. *)
Abbreviation DataFrame := (list (string * pyfloat)).

Definition index (df : DataFrame) : list string := df.*1.

(** [df.to_numpy()]: an [n x 1] array. *)
Definition to_numpy (df : DataFrame) : list (list pyfloat) :=
  (λ r, [r.2]) <$> df.

(** The genotype HDF5 file: datasets 'accessions', 'positions' and 'snps'
    (one row per SNP, one column per accession), and the attribute
    'chr_regions' of 'positions' (one [(start, end)] pair per chromosome). *)
Record geno_file : Type := {
  g_accessions : list string;
  g_positions : list Z;
  g_snps : list (list Z);
  g_chr_regions : list (Z * Z)
}.

(** The kinship HDF5 file: datasets 'accessions' and 'kinship'. *)
Record kin_file : Type := {
  k_accessions : list string;
  k_kinship : list (list pyfloat)
}.

(** ** numpy, pandas and h5py primitives used by the notebook *)

(** [x in a] for a numpy array [a]. *)
Definition np_contains (a : list string) (x : string) : bool :=
  bool_decide (x ∈ a).

(** [np.where(a == x)[0][0]]: the first position of [x]; IndexError when
    [x] does not occur. *)
Definition np_where_first (a : list string) (x : string) : py nat :=
  match list_find (λ y, y = x) a with
  | Some (i, _) => Ok i
  | None => Raise IndexError
  end.

(** [a[idx]] for a numpy array and a list of positions (fancy indexing). *)
Definition np_take {A : Type} (a : list A) (idx : list nat) : py (list A) :=
  py_for (λ i, match a !! i with
               | Some x => Ok x
               | None => Raise IndexError
               end) idx.

(** Strictly increasing positions, as h5py requires of an index list. *)
Fixpoint increasing (idx : list nat) : bool :=
  match idx with
  | i :: ((j :: _) as rest) => (i <? j)%nat && increasing rest
  | _ => true
  end.

(** [dset[idx]] for an h5py dataset and a list of positions: TypeError
    unless the positions are strictly increasing (an empty list selects
    nothing). *)
Definition h5_take {A : Type} (d : list A) (idx : list nat) : py (list A) :=
  if increasing idx then np_take d idx else Raise TypeError.

(** [dset[:, idx]] for a two-dimensional h5py dataset. *)
Definition h5_take_cols {A : Type} (d : list (list A)) (idx : list nat)
  : py (list (list A)) :=
  if increasing idx then py_for (λ row, np_take row idx) d
  else Raise TypeError.

(** [df.loc[labels]]: for every label in turn, the rows carrying it;
    KeyError when a label is not in the index. *)
Fixpoint loc (labels : list string) (df : DataFrame) : py DataFrame :=
  match labels with
  | [] => Ok []
  | l :: labels' =>
      match filter (λ r, r.1 = l) df with
      | [] => Raise KeyError
      | rows =>
          match loc labels' df with
          | Ok rest => Ok (rows ++ rest)
          | Raise e => Raise e
          end
      end
  end.

(** [list.sort()] on positions. *)
Definition py_sort (l : list nat) : list nat := merge_sort Nat.le l.

(** ** Section 2a: load phenotypes *)

(** [str(int(x)).encode('UTF8')] *)
Definition encode_index (x : Z) : string := pretty x.

(** The parsed CSV (index column [ecotypeid], one value column) becomes
    [pheno]: the index is re-encoded, then [dropna] removes the rows
    without a value. *)
Definition load_pheno (csv : list (Z * pyfloat)) : DataFrame :=
  filter (λ r, isna r.2 = false) (prod_map encode_index id <$> csv).

(** ** Section 3a: prepare the phenotype matrix Y *)

Record prepared_Y : Type := {
  pY_pheno : DataFrame;        (* [pheno] after the cell *)
  pY_acn_indices : list nat;   (* [acn_indices] after the cell *)
  pY_Y : list (list pyfloat)   (* [Y] *)
}.

Definition prepare_Y (pheno : DataFrame) (geno : geno_file) : py prepared_Y :=
  let acn_genotyped := filter (λ acn, np_contains (g_accessions geno) acn = true)
                              (index pheno) in
  pheno1 ← loc acn_genotyped pheno;
  acn_indices0 ← py_for (np_where_first (g_accessions geno)) (index pheno1);
  let acn_indices := py_sort acn_indices0 in
  acn_order ← h5_take (g_accessions geno) acn_indices;
  pheno2 ← loc acn_order pheno1;
  mret {| pY_pheno := pheno2;
          pY_acn_indices := acn_indices;
          pY_Y := to_numpy pheno2 |}.

(** ** Section 3b: prepare the genotype matrix G *)

(** [row.sum()] *)
Definition row_sum (row : list Z) : Z := foldr Z.add 0 row.

(** [a / n] on numpy integers (true division). *)
Definition np_true_divide (a n : Z) : pyfloat :=
  if decide (n = 0) then
    if decide (a = 0) then NaN else Inf (bool_decide (a < 0))
  else Fin (inject_Z a / inject_Z n).

(** [x >= c] on floats; every comparison with NaN is false. *)
Definition float_ge (x : pyfloat) (c : Q) : bool :=
  match x with
  | NaN => false
  | Inf negative => negb negative
  | Fin q => Qle_bool c q
  end.

(** [np.where(mask)[0]], counting positions from [i]. *)
Fixpoint np_where_from (i : nat) (mask : list bool) : list nat :=
  match mask with
  | [] => []
  | b :: mask' =>
      if b then i :: np_where_from (S i) mask'
      else np_where_from (S i) mask'
  end.

Definition np_where (mask : list bool) : list nat := np_where_from 0 mask.

(** [M.transpose()] of a matrix with [ncols] columns. *)
Definition np_transpose {A : Type} (ncols : nat) (M : list (list A))
  : list (list A) :=
  (λ j, omap (λ row, row !! j) M) <$> seq 0 ncols.

Definition AC1 (G : list (list Z)) : list Z := row_sum <$> G.
Definition AC0 (ncols : nat) (G : list (list Z)) : list Z :=
  (λ a, Z.of_nat ncols - a) <$> AC1 G.
(** [np.min(np.vstack((AC0, AC1)), axis = 0)] *)
Definition MAC (ncols : nat) (G : list (list Z)) : list Z :=
  zip_with Z.min (AC0 ncols G) (AC1 G).
Definition MAF (ncols : nat) (G : list (list Z)) : list pyfloat :=
  (λ m, np_true_divide m (Z.of_nat ncols)) <$> MAC ncols G.

Record prepared_G : Type := {
  pG_MAF : list pyfloat;         (* [MAF], one entry per SNP of the file *)
  pG_SNP_indices : list nat;     (* [SNP_indices] *)
  pG_SNPs_MAF : list pyfloat;    (* [SNPs_MAF] *)
  pG_rows : list (list Z);       (* [G] before the transposition *)
  pG_G : list (list Z)           (* [G]: accessions x SNPs *)
}.

Definition prepare_G (geno : geno_file) (acn_indices : list nat)
    (maf_cutoff : Q) : py prepared_G :=
  G0 ← h5_take_cols (g_snps geno) acn_indices;
  let ncols := length acn_indices in       (* [G.shape[1]] *)
  let maf := MAF ncols G0 in
  let SNP_indices := np_where ((λ f, float_ge f maf_cutoff) <$> maf) in
  SNPs_MAF ← np_take maf SNP_indices;
  G1 ← np_take G0 SNP_indices;
  mret {| pG_MAF := maf;
          pG_SNP_indices := SNP_indices;
          pG_SNPs_MAF := SNPs_MAF;
          pG_rows := G1;
          pG_G := np_transpose ncols G1 |}.

(** ** Section 3c: prepare the kinship matrix K *)

Record prepared_K : Type := {
  pK_acn_indices : list nat;       (* [acn_indices] after the cell *)
  pK_K : list (list pyfloat)       (* [K] *)
}.

Definition prepare_K (pheno : DataFrame) (kin : kin_file) : py prepared_K :=
  acn_indices0 ← py_for (np_where_first (k_accessions kin)) (index pheno);
  let acn_indices := py_sort acn_indices0 in
  rows ← h5_take (k_kinship kin) acn_indices;
  K ← py_for (λ row, np_take row acn_indices) rows;
  mret {| pK_acn_indices := acn_indices; pK_K := K |}.

(** ** Sections 2 and 3 together *)

(** What reaches the association scan, together with the accession that
    every row of [Y], every row of [G] and every row (and column) of [K]
    belongs to.  The three label vectors are read off with the very index
    lists that select the data: [pheno.index] for [Y], the 'accessions'
    of the genotype file at the positions that select the columns of
    'snps', and the 'accessions' of the kinship file at the positions that
    select the rows and columns of 'kinship'. *)
Record prepared : Type := {
  p_Y : list (list pyfloat);
  p_G : list (list Z);
  p_K : list (list pyfloat);
  p_SNP_indices : list nat;
  p_SNPs_MAF : list pyfloat;
  p_Y_accessions : list string;
  p_G_accessions : list string;
  p_K_accessions : list string
}.

Definition prepare (csv : list (Z * pyfloat)) (geno : geno_file)
    (kin : kin_file) (maf_cutoff : Q) : py prepared :=
  let pheno := load_pheno csv in
  pY ← prepare_Y pheno geno;
  pG ← prepare_G geno (pY_acn_indices pY) maf_cutoff;
  G_acn ← h5_take (g_accessions geno) (pY_acn_indices pY);
  pK ← prepare_K (pY_pheno pY) kin;
  K_acn ← h5_take (k_accessions kin) (pK_acn_indices pK);
  mret {| p_Y := pY_Y pY;
          p_G := pG_G pG;
          p_K := pK_K pK;
          p_SNP_indices := pG_SNP_indices pG;
          p_SNPs_MAF := pG_SNPs_MAF pG;
          p_Y_accessions := index (pY_pheno pY);
          p_G_accessions := G_acn;
          p_K_accessions := K_acn |}.

(** ** Section 4: check input variables *)

(** What a notebook variable may hold: a numpy array (its shape and its
    contents) or any other object. *)
Inductive pyobj (A : Type) : Type :=
  | NdArray (shape : list nat) (data : A)
  | NotArray.
Arguments NdArray {A} shape data.
Arguments NotArray {A}.

Record kernel : Type := {
  var_Y : pyobj (list (list pyfloat));
  var_G : pyobj (list (list Z));
  var_K : pyobj (list (list pyfloat))
}.

(** [o.shape] *)
Definition shape_of {A : Type} (o : pyobj A) : py (list nat) :=
  match o with
  | NdArray shape _ => Ok shape
  | NotArray => Raise AttributeError
  end.

(** [shape[i]] on the shape tuple *)
Definition tuple_get (shape : list nat) (i : nat) : py nat :=
  match shape !! i with
  | Some d => Ok d
  | None => Raise IndexError
  end.

(** [isinstance(o, np.ndarray)] *)
Definition is_ndarray {A : Type} (o : pyobj A) : bool :=
  match o with
  | NdArray _ _ => true
  | NotArray => false
  end.

(** [str(shape)] of a tuple of integers *)
Definition tuple_str (shape : list nat) : string :=
  match shape with
  | [] => "()"
  | [d] => "(" +:+ pretty d +:+ ",)"
  | d :: ds => "(" +:+ foldl (λ acc e, acc +:+ ", " +:+ pretty e) (pretty d) ds +:+ ")"
  end.

(** A check cell leaves the variables as they are and prints some lines. *)
Definition check_Y (k : kernel) : py (kernel * list string) :=
  if negb (is_ndarray (var_Y k)) then
    Raise (ValueError "Y must be a numpy array")
  else
    Yshape ← shape_of (var_Y k);
    c ← tuple_get Yshape 1;
    if negb (c =? 1)%nat then
      Raise (ValueError ("Number of columns in Y must be 1, but got " +:+ pretty c))
    else
      r ← tuple_get Yshape 0;
      mret (k, ["Everything is fine"; "Number of Accessions is " +:+ pretty r]).

Definition check_G (k : kernel) : py (kernel * list string) :=
  if negb (is_ndarray (var_G k)) then
    Raise (ValueError "G must be a numpy array")
  else
    Gshape ← shape_of (var_G k);
    g0 ← tuple_get Gshape 0;
    Yshape ← shape_of (var_Y k);
    y0 ← tuple_get Yshape 0;
    if negb (g0 =? y0)%nat then
      Raise (ValueError ("Number of columns in G must be equal to the number of accession "
                         +:+ pretty y0 +:+ ", but got " +:+ pretty g0))
    else
      g1 ← tuple_get Gshape 1;
      mret (k, ["Everything is fine"; "Number of SNPs is " +:+ pretty g1]).

Definition check_K (k : kernel) : py (kernel * list string) :=
  if negb (is_ndarray (var_K k)) then
    Raise (ValueError "K must be a numpy array")
  else
    Kshape ← shape_of (var_K k);
    k0 ← tuple_get Kshape 0;
    Yshape ← shape_of (var_Y k);
    y0 ← tuple_get Yshape 0;
    (* [or] evaluates its second operand only when the first is false *)
    differs ← (if negb (k0 =? y0)%nat then mret true
               else k1 ← tuple_get Kshape 1; mret (negb (k1 =? y0)%nat));
    if differs : bool then
      Raise (ValueError ("Number of rows and columns in K must be equal to the number of accession "
                         +:+ pretty y0 +:+ ", but got " +:+ tuple_str Kshape))
    else
      mret (k, ["Everything is fine"]).

(** Cells 4a, 4b and 4c in order; the first exception stops the run. *)
Definition check_inputs (k : kernel) : py (kernel * list string) :=
  r1 ← check_Y k;
  r2 ← check_G r1.1;
  r3 ← check_K r2.1;
  mret (r3.1, r1.2 ++ r2.2 ++ r3.2).

(** ** Section 5: result tables *)

(** [bisect.bisect] (that is, [bisect_right]) of the Python library:
    [while lo < hi: mid = (lo + hi) // 2; if x < a[mid]: hi = mid
     else: lo = mid + 1] and then [return lo]. *)
Equations? bisect_loop (a : list Z) (x : Z) (lo hi : nat) : py nat
  by wf (hi - lo)%nat lt :=
  bisect_loop a x lo hi with decide (lo < hi)%nat => {
    | right _ := Ok lo;
    | left _ with a !! ((lo + hi) / 2)%nat => {
        | None := Raise IndexError;
        | Some am with decide (x < am) => {
            | left _ := bisect_loop a x lo ((lo + hi) / 2)%nat;
            | right _ := bisect_loop a x (S ((lo + hi) / 2)%nat) hi } } }.
Proof.
  all: change (Nat.divmod (lo + hi) 1 0 1).1 with ((lo + hi) / 2)%nat;
       pose proof (Nat.div_mod_eq (lo + hi) 2) as Hd;
       pose proof (Nat.mod_upper_bound (lo + hi) 2) as Hm; lia.
Qed.

Definition bisect (a : list Z) (x : Z) : py nat :=
  bisect_loop a x 0 (length a).

(** The frame [r.effsizes['h2']] of the scan: the columns 'effect_type'
    and 'effsize'; and [r.stats.pv20]. *)
Record scan_result : Type := {
  pv20 : list pyfloat;
  effsizes_h2 : list (string * pyfloat)
}.

(** One tuple of [zip(chromosomes, positions, pvalues, mafs, effsizes)]. *)
Record result_row : Type := {
  r_chr : nat;
  r_pos : Z;
  r_pvalue : pyfloat;
  r_maf : pyfloat;
  r_effsize : pyfloat
}.

(** [zip] stops with the shortest of its arguments. *)
Fixpoint py_zip5 (cs : list nat) (ps : list Z) (pvs ms es : list pyfloat)
  : list result_row :=
  match cs, ps, pvs, ms, es with
  | c :: cs', p :: ps', pv :: pvs', m :: ms', e :: es' =>
      {| r_chr := c; r_pos := p; r_pvalue := pv; r_maf := m; r_effsize := e |}
        :: py_zip5 cs' ps' pvs' ms' es'
  | _, _, _, _, _ => []
  end.

(** [pd.DataFrame(rows, columns = names)] for rows of five entries. *)
Record results_frame : Type := {
  rf_columns : list string;
  rf_rows : list result_row
}.

Inductive cell : Type :=
  | CStr (s : string)
  | CInt (z : Z)
  | CFloat (f : pyfloat).

Definition row_cells (r : result_row) : list cell :=
  [CInt (Z.of_nat (r_chr r)); CInt (r_pos r); CFloat (r_pvalue r);
   CFloat (r_maf r); CFloat (r_effsize r)].

(** [frame.to_csv(path, index = index)]: the header line, then one line per
    row; with [index = True] every line starts with an extra field (empty
    in the header, the row number elsewhere). *)
Definition to_csv (index : bool) (f : results_frame) : list (list cell) :=
  ((if index then [CStr ""] else []) ++ (CStr <$> rf_columns f))
  :: imap (λ i r, (if index then [CInt (Z.of_nat i)] else []) ++ row_cells r)
          (rf_rows f).

(** [[bisect(chr_index[:, 1], snp_index) + 1 for snp_index in SNP_indices]] *)
Definition chromosomes_of (chr_index : list (Z * Z)) (SNP_indices : list nat)
  : py (list nat) :=
  py_for (λ snp_index : nat,
            c ← bisect (chr_index.*2) (Z.of_nat snp_index);
            mret (c + 1)%nat) SNP_indices.

(** [r.effsizes['h2']['effsize'][r.effsizes['h2']['effect_type'] == 'candidate']] *)
Definition candidate_effsizes (r : scan_result) : list pyfloat :=
  (filter (λ e, e.1 = "candidate") (effsizes_h2 r)).*2.

(** Cells 5b and 5d: the same code, run on the result of one scan. *)
Definition save_results (geno : geno_file) (SNP_indices : list nat)
    (SNPs_MAF : list pyfloat) (r : scan_result) : py (list (list cell)) :=
  let chr_index := g_chr_regions geno in
  chromosomes ← chromosomes_of chr_index SNP_indices;
  let positions_all := g_positions geno in
  positions ← np_take positions_all SNP_indices;
  let mafs := SNPs_MAF in
  let pvalues := pv20 r in
  let effsizes := candidate_effsizes r in
  let gwas_results :=
    {| rf_columns := ["chr"; "pos"; "pvalue"; "maf"; "GVE"];
       rf_rows := py_zip5 chromosomes positions pvalues mafs effsizes |} in
  mret (to_csv false gwas_results).

Definition is_name (name : string) (c : cell) : bool :=
  match c with
  | CStr s => bool_decide (s = name)
  | _ => false
  end.

(** Reading a written table back: the fields below a column name. *)
Definition csv_column (name : string) (csv : list (list cell))
  : option (list cell) :=
  match csv with
  | [] => None
  | header :: lines =>
      match list_find (λ h, is_name name h = true) header with
      | Some (j, _) => Some (omap (λ line, line !! j) lines)
      | None => None
      end
  end.

(** ** Vocabulary of the properties *)

(** The number of entries of a row that equal [v]. *)
Definition count_allele (v : Z) (row : list Z) : Z :=
  Z.of_nat (length (filter (λ g, g = v) row)).

(** A row of 0/1 calls. *)
Definition binary_row (row : list Z) : Prop :=
  Forall (λ g, g = 0 ∨ g = 1) row.

(** The minor allele count of one row, as [MAC] computes it. *)
Definition row_MAC (ncols : nat) (row : list Z) : Z :=
  Z.min (Z.of_nat ncols - row_sum row) (row_sum row).

(** The scan returned one p-value and one candidate effect size for each
    of [n] SNPs. *)
Definition scan_complete (n : nat) (r : scan_result) : Prop :=
  length (pv20 r) = n ∧ length (candidate_effsizes r) = n.

(** The data lines of a written table (all lines but the header). *)
Definition data_lines (csv : list (list cell)) : list (list cell) := tail csv.

(** The regions of the chromosomes follow one another from [start] on. *)
Fixpoint contiguous (start : Z) (regions : list (Z * Z)) : Prop :=
  match regions with
  | [] => True
  | (s, e) :: regions' => s = start ∧ s ≤ e ∧ contiguous e regions'
  end.

(** The end of the last region ([start] when there is none). *)
Definition regions_end (start : Z) (regions : list (Z * Z)) : Z :=
  default start (last (regions.*2)).

(** SNP [i] lies in the region recorded for chromosome [c] (numbered from 1). *)
Definition in_chromosome (regions : list (Z * Z)) (i c : nat) : Prop :=
  ∃ s e, (1 ≤ c)%nat ∧ regions !! (c - 1)%nat = Some (s, e) ∧
         s ≤ Z.of_nat i < e.

(** A list of integers in nondecreasing order, by positions. *)
Definition ascending (a : list Z) : Prop :=
  ∀ i j ai aj, (i ≤ j)%nat → a !! i = Some ai → a !! j = Some aj → ai ≤ aj.

(** [o.shape[0]] and [o.shape[1]] when they exist. *)
Definition nrows {A : Type} (o : pyobj A) : option nat :=
  match o with
  | NdArray shape _ => shape !! 0%nat
  | NotArray => None
  end.

Definition ncols {A : Type} (o : pyobj A) : option nat :=
  match o with
  | NdArray shape _ => shape !! 1%nat
  | NotArray => None
  end.

(** A variable that holds no array, or an array with at least two
    dimensions: [o.shape[0]] and [o.shape[1]] exist whenever [o.shape]
    does. *)
Definition two_axes_if_array {A : Type} (o : pyobj A) : Prop :=
  match o with
  | NdArray shape _ => (2 ≤ length shape)%nat
  | NotArray => True
  end.

(** The three manual checks, as violations. *)
Definition Y_check_violated (k : kernel) : Prop :=
  is_ndarray (var_Y k) = false ∨ ncols (var_Y k) ≠ Some 1%nat.

Definition G_check_violated (k : kernel) : Prop :=
  is_ndarray (var_G k) = false ∨ nrows (var_G k) ≠ nrows (var_Y k).

Definition K_check_violated (k : kernel) : Prop :=
  is_ndarray (var_K k) = false ∨
  nrows (var_K k) ≠ nrows (var_Y k) ∨ ncols (var_K k) ≠ nrows (var_Y k).

(** The first position of [x] in [a] (0 when [x] does not occur). *)
Definition first_pos (a : list string) (x : string) : nat :=
  default 0%nat (fst <$> list_find (λ y, y = x) a).

(** The labels of [pheno] that occur among the genotyped accessions
    ([acn_genotyped] of section 3a). *)
Definition genotyped (geno : geno_file) (pheno : DataFrame) : list string :=
  filter (λ acn, np_contains (g_accessions geno) acn = true) (index pheno).

(** The header line of a result table. *)
Definition results_header : list cell :=
  [CStr "chr"; CStr "pos"; CStr "pvalue"; CStr "maf"; CStr "GVE"].

(** ** A small data set

    Four genotyped accessions, three SNPs on two chromosomes; the kinship
    file lists the accessions in another order than the genotype file; the
    phenotype table has an accession without genotype (9) and one without
    value (4). *)

Definition demo_geno : geno_file :=
  {| g_accessions := ["1"; "2"; "3"; "4"];
     g_positions := [101; 139; 203];
     g_snps := [[0; 1; 0; 1]; [1; 1; 1; 0]; [0; 0; 1; 1]];
     g_chr_regions := [(0, 2); (2, 3)] |}.

Definition demo_kin : kin_file :=
  {| k_accessions := ["3"; "2"; "1"; "4"];
     k_kinship := [[Fin 33; Fin 32; Fin 31; Fin 34];
                   [Fin 23; Fin 22; Fin 21; Fin 24];
                   [Fin 13; Fin 12; Fin 11; Fin 14];
                   [Fin 43; Fin 42; Fin 41; Fin 44]] |}.

Definition demo_csv : list (Z * pyfloat) :=
  [(3, Fin 1.5); (9, Fin 2); (1, Fin 0.25); (4, NaN); (2, Fin 7)].

Definition demo_acn_indices : list nat := [0; 1; 2]%nat.

Definition demo_pG : prepared_G :=
  {| pG_MAF := [Fin (1 # 3); Fin (0 # 3); Fin (1 # 3)];
     pG_SNP_indices := [0; 2]%nat;
     pG_SNPs_MAF := [Fin (1 # 3); Fin (1 # 3)];
     pG_rows := [[0; 1; 0]; [0; 0; 1]];
     pG_G := [[0; 0]; [1; 0]; [0; 1]] |}.

Definition demo_scan : scan_result :=
  {| pv20 := [Fin 0.5; Fin 0.01];
     effsizes_h2 := [("covariate", Fin 8); ("candidate", Fin 1);
                     ("covariate", Fin 9); ("candidate", Fin (-2))] |}.

Definition demo_scan_nc : scan_result :=
  {| pv20 := [Fin 0.25; Fin 0.75];
     effsizes_h2 := [("covariate", Fin 7); ("candidate", Fin 3);
                     ("covariate", Fin 6); ("candidate", Fin 4)] |}.

(** Two accessions; the kinship file lists them in the opposite order. *)
Definition swapped_csv : list (Z * pyfloat) := [(1, Fin 0.5); (2, Fin 1.5)].

Definition swapped_geno : geno_file :=
  {| g_accessions := ["1"; "2"];
     g_positions := [101];
     g_snps := [[0; 1]];
     g_chr_regions := [(0, 1)] |}.

Definition swapped_kin : kin_file :=
  {| k_accessions := ["2"; "1"];
     k_kinship := [[Fin 22; Fin 21];
                   [Fin 12; Fin 11]] |}.

Definition demo_kernel : kernel :=
  {| var_Y := NdArray [3; 1]%nat [[Fin 0.25]; [Fin 7]; [Fin 1.5]];
     var_G := NdArray [3; 2]%nat [[0; 0]; [1; 0]; [0; 1]];
     var_K := NdArray [3; 3]%nat [[Fin 11; Fin 12; Fin 13];
                                  [Fin 21; Fin 22; Fin 23];
                                  [Fin 31; Fin 32; Fin 33]] |}.

Definition demo_table : list (list cell) :=
  [[CStr "chr"; CStr "pos"; CStr "pvalue"; CStr "maf"; CStr "GVE"];
   [CInt 1; CInt 101; CFloat (Fin 0.5); CFloat (Fin (1 # 3)); CFloat (Fin 1)];
   [CInt 2; CInt 203; CFloat (Fin 0.01); CFloat (Fin (1 # 3)); CFloat (Fin (-2))]].

Definition demo_table_nc : list (list cell) :=
  [[CStr "chr"; CStr "pos"; CStr "pvalue"; CStr "maf"; CStr "GVE"];
   [CInt 1; CInt 101; CFloat (Fin 0.25); CFloat (Fin (1 # 3)); CFloat (Fin 3)];
   [CInt 2; CInt 203; CFloat (Fin 0.75); CFloat (Fin (1 # 3)); CFloat (Fin 4)]].

(** ** Further vocabulary *)

(** Cell 1b: the names of the two result files,
    [f'{path_results}{pheno_pref}_gwas.csv'] and
    [f'{path_results}{pheno_pref}_gwas_nc.csv']. *)
Definition output_file (path_results pheno_pref : string) : string :=
  path_results +:+ pheno_pref +:+ "_gwas.csv".

Definition output_file_nc (path_results pheno_pref : string) : string :=
  path_results +:+ pheno_pref +:+ "_gwas_nc.csv".

(** The variable [o] holds the two-dimensional array with the rows [M]:
    its shape is the number of rows of [M] and the length that all rows of
    [M] have. *)
Definition array_with_rows {A : Type} (o : pyobj (list (list A)))
    (M : list (list A)) : Prop :=
  ∃ c, o = NdArray [length M; c] M ∧ Forall (λ row, length row = c) M.

(** [Y] as a flat array of three values (kept as one row), beside a [G]
    and a [K] for three accessions. *)
Definition flat_Y_kernel : kernel :=
  {| var_Y := NdArray [3]%nat [[Fin 0.25; Fin 7; Fin 1.5]];
     var_G := NdArray [3; 2]%nat [[0; 0]; [1; 0]; [0; 1]];
     var_K := NdArray [3; 3]%nat [[Fin 11; Fin 12; Fin 13];
                                  [Fin 21; Fin 22; Fin 23];
                                  [Fin 31; Fin 32; Fin 33]] |}.

(** A genotype file whose 'snps' rows have one call per accession and whose
    'positions' has one entry per row of 'snps'. *)
Definition geno_well_formed (geno : geno_file) : Prop :=
  Forall (λ row, length row = length (g_accessions geno)) (g_snps geno) ∧
  length (g_positions geno) = length (g_snps geno).

(** A kinship file whose 'kinship' is square, one row and one column per
    accession. *)
Definition kin_well_formed (kin : kin_file) : Prop :=
  length (k_kinship kin) = length (k_accessions kin) ∧
  Forall (λ row, length row = length (k_accessions kin)) (k_kinship kin).

(** Entry [(i, j)] of a matrix. *)
Definition entry {A : Type} (M : list (list A)) (i j : nat) : option A :=
  M !! i ≫= (λ row, row !! j).

(** The other coding of a genotype row: 0 and 1 exchanged. *)
Definition flip_alleles (row : list Z) : list Z := (λ g, 1 - g) <$> row.

(** The kinship of the two accessions, listed as the genotype file
    lists them. *)
Definition same_order_kin : kin_file :=
  {| k_accessions := ["1"; "2"];
     k_kinship := [[Fin 11; Fin 12];
                   [Fin 21; Fin 22]] |}.

(** A symmetric kinship of three accessions. *)
Definition symmetric_kin : kin_file :=
  {| k_accessions := ["2"; "7"; "1"];
     k_kinship := [[Fin 7; Fin 6; Fin 5];
                   [Fin 6; Fin 8; Fin 4];
                   [Fin 5; Fin 4; Fin 9]] |}.

(** ** The Manhattan plot helper [ggmanhattan] (R): the coordinates

    What the function computes before it calls ggplot: the cumulative
    chromosome boundaries, the data frame [df] of plotted points, and the
    breaks and labels of the x axis.  (The adjustment of the p-values and
    the drawing itself are calls into R libraries.)

    Conventions.
    - [results[, s.chr]] and [results[, s.pos]] are columns of R's integer
      type without missing values, as [read.csv] gives them for a table
      written by the notebook; a chromosome number is a positive integer.
    - [NA] is [None].
    - [chr.lengths] is [NULL] ([None]) or a vector of R's integer type. *)

Record gwas_row : Type := {
  m_chr : positive;
  m_pos : Z;
  m_pval : pyfloat
}.

Definition R_INT_MAX : Z := 2147483647.

(** [cumsum] on an integer vector: every entry from the first overflow on
    is [NA]. *)
Fixpoint r_cumsum_from (sum : Z) (x : list Z) : list (option Z) :=
  match x with
  | [] => []
  | v :: x' =>
      if decide (sum + v > R_INT_MAX ∨ sum + v < - R_INT_MAX)
      then replicate (length x) None
      else Some (sum + v) :: r_cumsum_from (sum + v) x'
  end.

Definition r_cumsum (x : list Z) : list (option Z) := r_cumsum_from 0 x.

(** [max] of a vector that is not empty. *)
Definition r_max (x : list Z) : option Z :=
  match x with
  | [] => None
  | v :: x' => Some (foldl Z.max v x')
  end.

(** The levels of [factor(chr)]: the distinct values in ascending order. *)
Definition r_levels (chr : list positive) : list positive :=
  merge_sort Pos.le (remove_dups chr).

(** [tapply(results[, s.pos], results[, s.chr], max)]: the largest position
    of each chromosome, in the order of the levels. *)
Definition tapply_max (results : list gwas_row) : list Z :=
  omap (λ c, r_max (m_pos <$> filter (λ r, m_chr r = c) results))
       (r_levels (m_chr <$> results)).

(** [v[i]] for a positive index: [NA] beyond the end of [v]. *)
Definition r_index {A : Type} (v : list (option A)) (i : positive) : option A :=
  v !! (Pos.to_nat i - 1)%nat ≫= id.

(** [1:n] for [n >= 0]; [1:0] counts down. *)
Definition r_one_to (n : nat) : list Z :=
  match n with
  | O => [1; 0]
  | _ => Z.of_nat <$> seq 1 n
  end.

Record manhattan_layout : Type := {
  cum_chr_len : list (option Z);   (* [cum.chr.len] *)
  df_pos : list (option Z);        (* [df$pos] *)
  df_y : list pyfloat;             (* [df$y] *)
  df_chr_even : list Z;            (* [df$chr.even] *)
  x_breaks : list (option Q);      (* [breaks] of [scale_x_continuous] *)
  x_labels : list Z                (* [labels] of [scale_x_continuous] *)
}.

Definition ggmanhattan_layout (results : list gwas_row)
    (chr_lengths : option (list Z)) : manhattan_layout :=
  let chr_lengths :=
    match chr_lengths with
    | None => tapply_max results
    | Some lengths => lengths
    end in
  let cum := Some 0 :: r_cumsum chr_lengths in
  {| cum_chr_len := cum;
     df_pos := (λ r, c ← r_index cum (m_chr r); Some (m_pos r + c)) <$> results;
     df_y := m_pval <$> results;
     df_chr_even := (λ r, Z.pos (m_chr r) `mod` 2) <$> results;
     x_breaks := zip_with (λ a b, a' ← a; b' ← b;
                                  Some ((inject_Z a' + inject_Z b') / 2)%Q)
                          (tail cum) (take (length cum - 1) cum);
     x_labels := r_one_to (length cum - 1) |}.

(** The boundary after the first [n] chromosomes. *)
Definition boundary (chr_lengths : list Z) (n : nat) : Z :=
  row_sum (take n chr_lengths).

(** Chromosome lengths that are not negative and add up within R's
    integer range. *)
Definition lengths_fit (chr_lengths : list Z) : Prop :=
  Forall (λ l, 0 ≤ l) chr_lengths ∧ row_sum chr_lengths ≤ R_INT_MAX.

(** A row on one of the [length chr_lengths] chromosomes, at a position
    from 1 to the length of its chromosome. *)
Definition on_chromosome (chr_lengths : list Z) (r : gwas_row) : Prop :=
  ∃ len, chr_lengths !! (Pos.to_nat (m_chr r) - 1)%nat = Some len ∧
         0 < m_pos r ≤ len.

Definition demo_results : list gwas_row :=
  [ {| m_chr := 1; m_pos := 101; m_pval := Fin 0.5 |};
    {| m_chr := 2; m_pos := 7; m_pval := Fin 0.01 |};
    {| m_chr := 1; m_pos := 139; m_pval := Fin 0.2 |} ].

Definition demo_lengths : list Z := [150; 20].

(** * Properties *)

(** ** List comprehensions and fancy indexing *)

Section py_for_facts.
Context {A B : Type} (f : A → py B).

Lemma py_for_Ok l k :
  py_for f l = Ok k ↔ Forall2 (λ x y, f x = Ok y) l k.
Proof.
  revert k. induction l as [|x l IH]; intros k; simpl.
  - split.
    + intros [= <-]. constructor.
    + intros H. by inversion H.
  - destruct (f x) as [y|e] eqn:Hx.
    + destruct (py_for f l) as [ys|e] eqn:Hl.
      * split.
        -- intros [= <-]. constructor; [done|]. by apply IH.
        -- intros H. inversion H as [|? y' ? k' Hy Hk]; subst.
           apply IH in Hk. congruence.
      * split; [done|].
        intros H. inversion H as [|? y' ? k' Hy Hk]; subst.
        apply IH in Hk. congruence.
    + split; [done|].
      intros H. inversion H; subst. congruence.
Qed.

Lemma py_for_length l k : py_for f l = Ok k → length k = length l.
Proof. intros H%py_for_Ok. symmetry. by eapply Forall2_length. Qed.

Lemma py_for_fmap (g : A → B) l :
  Forall (λ x, f x = Ok (g x)) l → py_for f l = Ok (g <$> l).
Proof.
  intros H. apply py_for_Ok.
  induction H; simpl; constructor; auto.
Qed.
End py_for_facts.

Lemma np_take_Ok {A : Type} (a : list A) idx k :
  np_take a idx = Ok k ↔ Forall2 (λ i x, a !! i = Some x) idx k.
Proof.
  unfold np_take. rewrite py_for_Ok.
  split; intros H; (eapply Forall2_impl; [exact H|]); simpl; intros i x.
  - by destruct (a !! i); intros [= ->].
  - by intros ->.
Qed.

Lemma np_take_total {A : Type} (a : list A) idx :
  Forall (λ i, i < length a)%nat idx → ∃ k, np_take a idx = Ok k.
Proof.
  induction 1 as [|i idx Hi _ [k Hk]].
  - by exists [].
  - destruct (lookup_lt_is_Some_2 a i Hi) as [x Hx].
    exists (x :: k). apply np_take_Ok. constructor; [done|].
    by apply np_take_Ok.
Qed.

Lemma np_take_length {A : Type} (a : list A) idx k :
  np_take a idx = Ok k → length k = length idx.
Proof. apply py_for_length. Qed.

(** ** [np.where] *)

Lemma np_where_from_elem mask k i :
  i ∈ np_where_from k mask ↔ (k ≤ i)%nat ∧ mask !! (i - k)%nat = Some true.
Proof.
  revert k. induction mask as [|b mask IH]; intros k; simpl.
  - rewrite elem_of_nil, lookup_nil. split; [done|]. by intros [_ ?].
  - assert (i ∈ np_where_from (S k) mask ↔
            (k < i)%nat ∧ (b :: mask) !! (i - k)%nat = Some true) as Hrest.
    { rewrite IH. split.
      - intros [Hle Hl]. split; [lia|].
        replace (i - k)%nat with (S (i - S k)) by lia. done.
      - intros [Hlt Hl]. split; [lia|].
        replace (i - k)%nat with (S (i - S k)) in Hl by lia. done. }
    destruct b.
    + rewrite elem_of_cons, Hrest. split.
      * intros [->|[? ?]]; [|split; [lia|done]].
        split; [lia|]. by rewrite Nat.sub_diag.
      * intros [Hle Hl].
        destruct (decide (i = k)) as [->|]; [by left|right].
        split; [lia|done].
    + rewrite Hrest. split.
      * intros [? ?]. split; [lia|done].
      * intros [Hle Hl].
        destruct (decide (i = k)) as [->|]; [|split; [lia|done]].
        by rewrite Nat.sub_diag in Hl.
Qed.

Lemma np_where_elem mask i :
  i ∈ np_where mask ↔ mask !! i = Some true.
Proof.
  unfold np_where. rewrite np_where_from_elem, Nat.sub_0_r.
  split; [by intros [_ ?]|]. intros ?. split; [lia|done].
Qed.

Lemma np_where_from_sorted mask k :
  StronglySorted lt (np_where_from k mask).
Proof.
  revert k. induction mask as [|b mask IH]; intros k; simpl.
  - constructor.
  - destruct b; [|apply IH].
    constructor; [apply IH|].
    apply Forall_forall. intros j Hj%np_where_from_elem. lia.
Qed.

Lemma np_where_sorted mask : StronglySorted lt (np_where mask).
Proof. apply np_where_from_sorted. Qed.

Lemma np_where_bound mask i : i ∈ np_where mask → (i < length mask)%nat.
Proof. intros H%np_where_elem. by eapply lookup_lt_Some. Qed.

(** ** Allele counts and frequencies *)

Lemma MAC_rows ncols G : MAC ncols G = row_MAC ncols <$> G.
Proof.
  unfold MAC, AC0, AC1, row_MAC.
  induction G as [|row G IH]; [done|]. cbn. f_equal. exact IH.
Qed.

Lemma MAF_rows ncols G :
  MAF ncols G = (λ row, np_true_divide (row_MAC ncols row) (Z.of_nat ncols)) <$> G.
Proof. unfold MAF. by rewrite MAC_rows, <- list_fmap_compose. Qed.

Lemma MAF_length ncols G : length (MAF ncols G) = length G.
Proof. by rewrite MAF_rows, length_fmap. Qed.

Lemma binary_row_counts row :
  binary_row row →
  row_sum row = count_allele 1 row ∧
  Z.of_nat (length row) - row_sum row = count_allele 0 row.
Proof.
  unfold count_allele.
  induction 1 as [|g row [->| ->] _ [IH1 IH0]]; [done|..].
  - rewrite (filter_cons_False (λ g, g = 1)), (filter_cons_True (λ g, g = 0))
      by done.
    unfold row_sum in *. simpl. lia.
  - rewrite (filter_cons_True (λ g, g = 1)), (filter_cons_False (λ g, g = 0))
      by done.
    unfold row_sum in *. simpl. lia.
Qed.

Lemma row_MAC_half (row : list Z) :
  2 * row_MAC (length row) row ≤ Z.of_nat (length row).
Proof. unfold row_MAC. lia. Qed.

Lemma row_MAC_nil : row_MAC 0 [] = 0.
Proof. reflexivity. Qed.

Lemma Q_half_bound (m n : Z) :
  0 < n → 2 * m ≤ n → (inject_Z m / inject_Z n <= 1 # 2)%Q.
Proof.
  intros Hn Hm. apply Qle_shift_div_r.
  - change 0%Q with (inject_Z 0). by rewrite <- Zlt_Qlt.
  - unfold Qle, Qmult, inject_Z. simpl. lia.
Qed.

(** A frequency computed from a row of [ncols] entries is a number of at
    most one half, or NaN when there are no columns. *)
Lemma row_MAF_cases (row : list Z) :
  let f := np_true_divide (row_MAC (length row) row) (Z.of_nat (length row)) in
  f = NaN ∨ ∃ q, f = Fin q ∧ (q <= 1 # 2)%Q.
Proof.
  simpl. unfold np_true_divide.
  destruct (decide (Z.of_nat (length row) = 0)) as [H0|Hn].
  - left. destruct row; [|simpl in H0; lia]. by rewrite decide_True.
  - right. eexists. split; [done|].
    apply Q_half_bound; [lia|apply row_MAC_half].
Qed.

Lemma float_ge_Fin q c : float_ge (Fin q) c = true ↔ (c <= q)%Q.
Proof. simpl. apply Qle_bool_iff. Qed.

(** ** Shape of the genotype selection *)

Lemma h5_take_cols_Ok {A : Type} (d : list (list A)) idx G :
  h5_take_cols d idx = Ok G →
  Forall2 (λ row row', np_take row idx = Ok row') d G.
Proof.
  unfold h5_take_cols. destruct (increasing idx); [|done].
  by intros H%py_for_Ok.
Qed.

Lemma h5_take_cols_row_length {A : Type} (d : list (list A)) idx G :
  h5_take_cols d idx = Ok G → Forall (λ row, length row = length idx) G.
Proof.
  intros H%h5_take_cols_Ok.
  induction H as [|row row' d G Hrow _ IH]; constructor; [|done].
  by eapply np_take_length.
Qed.

(** What [prepare_G] returns, cell by cell. *)
Lemma prepare_G_Ok geno idx cutoff pG :
  prepare_G geno idx cutoff = Ok pG →
  ∃ G0,
    h5_take_cols (g_snps geno) idx = Ok G0 ∧
    pG_MAF pG = MAF (length idx) G0 ∧
    pG_SNP_indices pG = np_where ((λ f, float_ge f cutoff) <$> pG_MAF pG) ∧
    np_take (pG_MAF pG) (pG_SNP_indices pG) = Ok (pG_SNPs_MAF pG) ∧
    np_take G0 (pG_SNP_indices pG) = Ok (pG_rows pG) ∧
    pG_G pG = np_transpose (length idx) (pG_rows pG).
Proof.
  unfold prepare_G. intros H.
  destruct (h5_take_cols (g_snps geno) idx) as [G0|e] eqn:HG0; [|done].
  exists G0. simpl in H.
  destruct (np_take (MAF (length idx) G0) _) as [mafs|e] eqn:Hm; [|done].
  simpl in H.
  destruct (np_take G0 _) as [G1|e] eqn:HG1; [|done].
  simpl in H. injection H as <-. by simpl.
Qed.

Lemma prepare_G_total geno idx cutoff :
  (∃ G0, h5_take_cols (g_snps geno) idx = Ok G0) →
  ∃ pG, prepare_G geno idx cutoff = Ok pG.
Proof.
  intros [G0 HG0]. unfold prepare_G. rewrite HG0. simpl.
  set (ids := np_where _).
  assert (Forall (λ i, i < length (MAF (length idx) G0))%nat ids) as Hb.
  { apply Forall_forall. intros i Hi%np_where_bound.
    by rewrite length_fmap in Hi. }
  destruct (np_take_total _ _ Hb) as [mafs ->]. simpl.
  rewrite MAF_length in Hb.
  destruct (np_take_total _ _ Hb) as [G1 ->]. simpl. eauto.
Qed.

Lemma prepare_G_MAF_cases geno idx cutoff pG :
  prepare_G geno idx cutoff = Ok pG →
  Forall (λ f, f = NaN ∨ ∃ q, f = Fin q ∧ (q <= 1 # 2)%Q) (pG_MAF pG).
Proof.
  intros (G0 & HG0 & -> & _)%prepare_G_Ok.
  apply h5_take_cols_row_length in HG0.
  rewrite MAF_rows. apply Forall_fmap.
  eapply Forall_impl; [exact HG0|]. simpl. intros row <-.
  apply row_MAF_cases.
Qed.

Example demo_prepare_G : prepare_G demo_geno demo_acn_indices 0.1 = Ok demo_pG.
Proof. reflexivity. Qed.

(** ** The minor-allele-frequency filter *)

(** C3: for a row of 0/1 calls over [n] accessions, the computed frequency
    is the smaller of the two allele counts divided by [n] (and NaN, the
    value of [0 / 0], when there is no accession at all). *)
Theorem C3_maf_is_rarer_allele_over_n (G : list (list Z)) (n i : nat)
    (row : list Z) :
  G !! i = Some row →
  length row = n →
  binary_row row →
  MAF n G !! i =
    Some (if decide (n = 0%nat) then NaN
          else Fin (inject_Z (Z.min (count_allele 1 row) (count_allele 0 row))
                    / inject_Z (Z.of_nat n))).
Proof.
  intros Hi Hlen Hbin.
  rewrite MAF_rows, list_lookup_fmap, Hi. simpl. f_equal.
  destruct (binary_row_counts row Hbin) as [H1 H0].
  unfold np_true_divide, row_MAC. subst n.
  rewrite H0, H1, Z.min_comm.
  destruct (decide (length row = 0%nat)) as [Hz|Hnz].
  - rewrite decide_True by lia.
    destruct row; [|done]. by rewrite decide_True.
  - by rewrite decide_False by lia.
Qed.

Lemma C3_maf_is_rarer_allele_over_n_witness :
  MAF 3 [[0; 1; 0]; [1; 1; 1]; [0; 0; 1]] !! 0%nat = Some (Fin (1 # 3)).
Proof.
  apply (C3_maf_is_rarer_allele_over_n
           [[0; 1; 0]; [1; 1; 1]; [0; 0; 1]] 3 0 [0; 1; 0]).
  - reflexivity.
  - reflexivity.
  - unfold binary_row. repeat (apply List.Forall_cons; [lia|]). apply List.Forall_nil.
Defined.

(** ** Binary search *)

(** Facts about [mid = (lo + hi) // 2] for [lia]. *)
Ltac midpoint lo hi :=
  pose proof (Nat.div_mod_eq (lo + hi) 2);
  pose proof (Nat.mod_upper_bound (lo + hi) 2).

(** On a list in nondecreasing order the loop keeps the elements left of
    [lo] at or below [x] and those from [hi] on above [x]; it ends with the
    position where the two parts meet, and never reads outside the list. *)
Lemma bisect_loop_spec a x lo hi :
  ascending a →
  (lo ≤ hi ≤ length a)%nat →
  (∀ j aj, (j < lo)%nat → a !! j = Some aj → aj ≤ x) →
  (∀ j aj, (hi ≤ j)%nat → a !! j = Some aj → x < aj) →
  ∃ i, bisect_loop a x lo hi = Ok i ∧ (i ≤ length a)%nat ∧
       (∀ j aj, (j < i)%nat → a !! j = Some aj → aj ≤ x) ∧
       (∀ j aj, (i ≤ j)%nat → a !! j = Some aj → x < aj).
Proof.
  funelim (bisect_loop a x lo hi); intros Hasc Hb Hlo Hhi.
  - exists lo. split_and!; [done|lia|done|].
    intros j aj Hj. apply Hhi. lia.
  - exfalso.
    match goal with H : _ !! _ = None |- _ => apply lookup_ge_None in H end.
    midpoint lo hi. lia.
  - match goal with IH : ascending _ → _ |- _ => apply IH end; [done|..].
    + midpoint lo hi. lia.
    + done.
    + intros j aj Hj Haj.
      assert (am ≤ aj); [|lia]. by eapply (Hasc _ j); [exact Hj|..].
  - match goal with IH : ascending _ → _ |- _ => apply IH end; [done|..].
    + midpoint lo hi. lia.
    + intros j aj Hj Haj.
      assert (aj ≤ am); [|lia]. eapply (Hasc j); [|done..]. lia.
    + done.
Qed.

Lemma bisect_spec a x :
  ascending a →
  ∃ i, bisect a x = Ok i ∧ (i ≤ length a)%nat ∧
       (∀ j aj, (j < i)%nat → a !! j = Some aj → aj ≤ x) ∧
       (∀ j aj, (i ≤ j)%nat → a !! j = Some aj → x < aj).
Proof.
  intros Hasc. apply bisect_loop_spec; [done|lia|intros; lia|].
  intros j aj Hj Haj. apply lookup_lt_Some in Haj. lia.
Qed.

(** [bisect] is monotone on a list in nondecreasing order. *)
Lemma bisect_mono a x y i j :
  ascending a → x ≤ y → bisect a x = Ok i → bisect a y = Ok j → (i ≤ j)%nat.
Proof.
  intros Hasc Hxy Hx Hy.
  destruct (bisect_spec a x Hasc) as (i' & Hi' & Hlen & Hle & _).
  destruct (bisect_spec a y Hasc) as (j' & Hj' & _ & _ & Hgt).
  assert (i' = i) as -> by congruence. assert (j' = j) as -> by congruence.
  destruct (decide (i ≤ j)%nat) as [|Hn]; [done|exfalso].
  destruct (lookup_lt_is_Some_2 a j) as [aj Haj]; [lia|].
  pose proof (Hle j aj ltac:(lia) Haj). pose proof (Hgt j aj ltac:(lia) Haj).
  lia.
Qed.

(** ** Chromosome regions *)

Lemma contiguous_lookup regions : ∀ start k s e,
  contiguous start regions →
  regions !! k = Some (s, e) →
  start ≤ s ∧ s ≤ e ∧
  (k = 0%nat → s = start) ∧
  (∀ k' s' e', k = S k' → regions !! k' = Some (s', e') → s = e').
Proof.
  induction regions as [|[s0 e0] regions IH]; intros start k s e Hc Hk;
    [done|].
  destruct Hc as (-> & Hle & Hc). destruct k as [|k]; simpl in Hk.
  - injection Hk as -> ->. split_and!; [lia|done|done|]. intros; lia.
  - destruct (IH _ _ _ _ Hc Hk) as (He0 & Hse & H0 & HS).
    split_and!; [lia|done|lia|].
    intros k' s' e' [= <-] Hk'. destruct k as [|k]; simpl in Hk'.
    + injection Hk' as _ <-. by apply H0.
    + by eapply HS.
Qed.

Lemma contiguous_ascending regions : ∀ start,
  contiguous start regions → ascending (regions.*2).
Proof.
  induction regions as [|[s0 e0] regions IH]; intros start Hc i j ai aj Hij Hi Hj;
    [done|].
  destruct Hc as (-> & Hle & Hc).
  destruct i as [|i], j as [|j]; simpl in *; [| |lia|].
  - injection Hi as <-. injection Hj as <-. lia.
  - injection Hi as <-.
    apply list_lookup_fmap_Some in Hj as ([s e] & -> & Hj%(contiguous_lookup _ _ _ _ _ Hc)).
    simpl. lia.
  - eapply (IH _ Hc i j); [lia|done..].
Qed.

Lemma regions_end_cons start s e regions :
  regions_end start ((s, e) :: regions) = regions_end e regions.
Proof.
  unfold regions_end. destruct regions as [|r regions]; [done|].
  change (last (((s, e) :: r :: regions).*2)) with (last ((r :: regions).*2)).
  destruct (last ((r :: regions).*2)) eqn:Hlast; [done|].
  by apply last_None in Hlast.
Qed.

Lemma regions_end_lookup regions : ∀ start,
  regions ≠ [] →
  ∃ s, regions !! (length regions - 1)%nat = Some (s, regions_end start regions).
Proof.
  induction regions as [|[s0 e0] regions IH]; intros start Hne; [done|].
  rewrite regions_end_cons. destruct regions as [|r regions].
  - by exists s0.
  - destruct (IH e0) as [s Hs]; [done|]. exists s.
    simpl in *. by rewrite Nat.sub_0_r in Hs.
Qed.

(** With regions that follow one another from 0 on, the search puts every
    index below the end of the last region into the region it lies in. *)
Lemma bisect_in_chromosome regions (i : nat) :
  contiguous 0 regions →
  Z.of_nat i < regions_end 0 regions →
  ∃ k, bisect (regions.*2) (Z.of_nat i) = Ok k ∧
       in_chromosome regions i (k + 1).
Proof.
  intros Hc Hend.
  destruct (bisect_spec (regions.*2) (Z.of_nat i)) as (k & Hk & Hlen & Hle & Hgt);
    [by eapply contiguous_ascending|].
  exists k. split; [done|].
  rewrite length_fmap in Hlen.
  assert (regions ≠ []) as Hne.
  { intros ->. unfold regions_end in Hend. simpl in Hend. lia. }
  destruct (regions_end_lookup regions 0 Hne) as [sl Hlast].
  assert (k < length regions)%nat as Hklt.
  { destruct (decide (k < length regions)%nat) as [|Hn]; [done|exfalso].
    assert (regions_end 0 regions ≤ Z.of_nat i); [|lia].
    apply (Hle (length regions - 1)%nat).
    - destruct regions; [done|simpl in *; lia].
    - by rewrite list_lookup_fmap, Hlast. }
  destruct (lookup_lt_is_Some_2 regions k Hklt) as [[s e] Hreg].
  exists s, e. split; [lia|]. replace (k + 1 - 1)%nat with k by lia.
  split; [done|].
  destruct (contiguous_lookup _ _ _ _ _ Hc Hreg) as (_ & _ & H0 & HS).
  split.
  - destruct k as [|k']; [rewrite H0 by done; lia|].
    destruct (lookup_lt_is_Some_2 regions k') as [[s' e'] Hreg']; [lia|].
    rewrite (HS k' s' e' eq_refl Hreg').
    apply (Hle k'); [lia|]. by rewrite list_lookup_fmap, Hreg'.
  - apply (Hgt k); [lia|]. by rewrite list_lookup_fmap, Hreg.
Qed.

Lemma chromosomes_of_Ok regions idx chrs :
  chromosomes_of regions idx = Ok chrs ↔
  Forall2 (λ (i : nat) c, ∃ k, bisect (regions.*2) (Z.of_nat i) = Ok k ∧
                              c = (k + 1)%nat) idx chrs.
Proof.
  unfold chromosomes_of. rewrite py_for_Ok.
  split; intros H; (eapply Forall2_impl; [exact H|]); simpl; intros i c.
  - destruct (bisect _ _) as [k|e]; [|done]. intros [= <-]. by exists k.
  - by intros (k & -> & ->).
Qed.

Lemma chromosomes_of_sorted regions idx chrs :
  ascending (regions.*2) →
  StronglySorted lt idx →
  chromosomes_of regions idx = Ok chrs →
  StronglySorted le chrs.
Proof.
  intros Hasc Hs H%chromosomes_of_Ok.
  induction H as [|i c idx chrs (k & Hk & ->) Hrest IH]; [constructor|].
  apply StronglySorted_inv in Hs as [Hs Hi].
  constructor; [by apply IH|].
  clear IH Hs. induction Hrest as [|j c idx chrs (k' & Hk' & ->) _ IH];
    [constructor|].
  apply Forall_cons in Hi as [Hij Hi].
  constructor; [|by apply IH].
  assert (k ≤ k')%nat; [|lia].
  eapply (bisect_mono _ (Z.of_nat i) (Z.of_nat j)); [done|lia|done..].
Qed.

(** ** The written tables *)

Lemma to_csv_no_index f :
  to_csv false f = (CStr <$> rf_columns f) :: (row_cells <$> rf_rows f).
Proof. unfold to_csv. simpl. f_equal. apply (imap_const row_cells). Qed.

(** With [index = True] every line would start with one more field. *)
Example to_csv_with_index :
  to_csv true {| rf_columns := ["chr"; "pos"; "pvalue"; "maf"; "GVE"];
                 rf_rows := [{| r_chr := 1; r_pos := 101; r_pvalue := Fin 0.5;
                                r_maf := Fin (1 # 3); r_effsize := Fin 1 |}] |}
  = [[CStr ""; CStr "chr"; CStr "pos"; CStr "pvalue"; CStr "maf"; CStr "GVE"];
     [CInt 0; CInt 1; CInt 101; CFloat (Fin 0.5); CFloat (Fin (1 # 3));
      CFloat (Fin 1)]].
Proof. reflexivity. Qed.

(** What a result cell writes, step by step. *)
Lemma save_results_Ok geno idx mafs r csv :
  save_results geno idx mafs r = Ok csv ↔
  ∃ chrs poss,
    chromosomes_of (g_chr_regions geno) idx = Ok chrs ∧
    np_take (g_positions geno) idx = Ok poss ∧
    csv = results_header
          :: (row_cells <$> py_zip5 chrs poss (pv20 r) mafs (candidate_effsizes r)).
Proof.
  unfold save_results.
  destruct (chromosomes_of _ _) as [chrs|e]; simpl;
    [|split; [done|]; by intros (? & ? & [=] & _)].
  destruct (np_take _ _) as [poss|e]; simpl;
    [|split; [done|]; by intros (? & ? & _ & [=] & _)].
  rewrite to_csv_no_index. simpl. unfold results_header.
  split.
  - intros [= <-]. by exists chrs, poss.
  - intros (? & ? & [= <-] & [= <-] & ->). done.
Qed.

Lemma py_zip5_length cs ps pvs ms es n :
  length cs = n → length ps = n → length pvs = n → length ms = n →
  length es = n →
  length (py_zip5 cs ps pvs ms es) = n.
Proof.
  revert cs ps pvs ms es.
  induction n as [|n IH]; intros [|c cs] [|p ps] [|pv pvs] [|m ms] [|e es];
    simpl; try done.
  intros [= ?] [= ?] [= ?] [= ?] [= ?]. f_equal. by apply IH.
Qed.

Lemma py_zip5_columns cs ps pvs ms es n :
  length cs = n → length ps = n → length pvs = n → length ms = n →
  length es = n →
  r_chr <$> py_zip5 cs ps pvs ms es = cs ∧
  r_pos <$> py_zip5 cs ps pvs ms es = ps ∧
  r_maf <$> py_zip5 cs ps pvs ms es = ms.
Proof.
  revert cs ps pvs ms es.
  induction n as [|n IH]; intros [|c cs] [|p ps] [|pv pvs] [|m ms] [|e es];
    simpl; try done.
  intros [= ?] [= ?] [= ?] [= ?] [= ?].
  destruct (IH cs ps pvs ms es) as (Hc & Hp & Hm); [done..|].
  split_and!; f_equal; done.
Qed.

(** Whatever the lengths, row [i] of the zipped table holds entry [i] of
    the chromosome, position and frequency lists. *)
Lemma py_zip5_lookup cs ps pvs ms es i row :
  py_zip5 cs ps pvs ms es !! i = Some row →
  cs !! i = Some (r_chr row) ∧ ps !! i = Some (r_pos row) ∧
  ms !! i = Some (r_maf row).
Proof.
  revert cs ps pvs ms es.
  induction i as [|i IH]; intros [|c cs] [|p ps] [|pv pvs] [|m ms] [|e es];
    simpl; try done.
  - by intros [= <-].
  - apply IH.
Qed.

Lemma py_zip5_maf_Forall (P : pyfloat → Prop) cs ps pvs ms es :
  Forall P ms → Forall (λ row, P (r_maf row)) (py_zip5 cs ps pvs ms es).
Proof.
  intros H. apply Forall_lookup. intros i row Hrow%py_zip5_lookup.
  destruct Hrow as (_ & _ & Hm). by eapply Forall_lookup_1.
Qed.

Lemma omap_column {A : Type} (f : A → list cell) (g : A → cell) j
    (rows : list A) :
  (∀ r, f r !! j = Some (g r)) →
  omap (λ line : list cell, line !! j) (f <$> rows) = g <$> rows.
Proof.
  intros H. induction rows as [|row rows IH]; [done|].
  csimpl. rewrite H. csimpl. by f_equal.
Qed.

Lemma csv_column_chr rows :
  csv_column "chr" (results_header :: (row_cells <$> rows)) =
    Some ((λ row, CInt (Z.of_nat (r_chr row))) <$> rows).
Proof.
  unfold csv_column.
  replace (list_find _ results_header) with (Some (0%nat, CStr "chr"))
    by reflexivity.
  f_equal. by apply omap_column.
Qed.

Lemma csv_column_pos rows :
  csv_column "pos" (results_header :: (row_cells <$> rows)) =
    Some ((λ row, CInt (r_pos row)) <$> rows).
Proof.
  unfold csv_column.
  replace (list_find _ results_header) with (Some (1%nat, CStr "pos"))
    by reflexivity.
  f_equal. by apply omap_column.
Qed.

Lemma csv_column_maf rows :
  csv_column "maf" (results_header :: (row_cells <$> rows)) =
    Some ((λ row, CFloat (r_maf row)) <$> rows).
Proof.
  unfold csv_column.
  replace (list_find _ results_header) with (Some (3%nat, CStr "maf"))
    by reflexivity.
  f_equal. by apply omap_column.
Qed.

Lemma bisect_loop_total a x lo hi :
  (lo ≤ hi ≤ length a)%nat →
  ∃ i, bisect_loop a x lo hi = Ok i ∧ (lo ≤ i ≤ hi)%nat.
Proof.
  funelim (bisect_loop a x lo hi); intros Hb.
  - exists lo. split; [done|lia].
  - exfalso.
    match goal with H : _ !! _ = None |- _ => apply lookup_ge_None in H end.
    midpoint lo hi. lia.
  - midpoint lo hi.
    match goal with IH : _ → ∃ _, _ |- _ => destruct IH as (i & -> & Hi) end;
      [lia|].
    exists i. split; [done|lia].
  - midpoint lo hi.
    match goal with IH : _ → ∃ _, _ |- _ => destruct IH as (i & -> & Hi) end;
      [lia|].
    exists i. split; [done|lia].
Qed.

(** The search returns on every list, in order or not. *)
Lemma bisect_total a x : ∃ i, bisect a x = Ok i ∧ (i ≤ length a)%nat.
Proof.
  destruct (bisect_loop_total a x 0 (length a)) as (i & Hi & Hb); [lia|].
  exists i. split; [done|lia].
Qed.

Lemma chromosomes_of_total regions idx :
  ∃ chrs, chromosomes_of regions idx = Ok chrs.
Proof.
  induction idx as [|i idx [chrs IH]]; [by exists []|].
  destruct (bisect_total (regions.*2) (Z.of_nat i)) as (k & Hk & _).
  exists ((k + 1)%nat :: chrs). apply chromosomes_of_Ok.
  constructor; [by exists k|]. by apply chromosomes_of_Ok.
Qed.

Lemma chromosomes_of_length regions idx chrs :
  chromosomes_of regions idx = Ok chrs → length chrs = length idx.
Proof. apply py_for_length. Qed.

(** The retained SNPs are rows of the 'snps' dataset. *)
Lemma prepare_G_SNP_indices_bound geno idx cutoff pG :
  prepare_G geno idx cutoff = Ok pG →
  Forall (λ i, i < length (g_snps geno))%nat (pG_SNP_indices pG).
Proof.
  intros (G0 & HG0 & HMAF & Hidx & _)%prepare_G_Ok.
  apply h5_take_cols_Ok, Forall2_length in HG0.
  apply Forall_forall. intros i Hi. rewrite Hidx in Hi.
  apply np_where_bound in Hi.
  by rewrite length_fmap, HMAF, MAF_length, <- HG0 in Hi.
Qed.

Lemma prepare_G_SNPs_MAF_length geno idx cutoff pG :
  prepare_G geno idx cutoff = Ok pG →
  length (pG_SNPs_MAF pG) = length (pG_SNP_indices pG).
Proof.
  intros (G0 & _ & _ & _ & Hm & _)%prepare_G_Ok. by eapply np_take_length.
Qed.

(** C4: when the scan returned one p-value and one candidate effect size
    per retained SNP, every table the cell writes has one data line per
    entry of [SNP_indices]; and the cell does write the table as soon as
    the 'positions' dataset has an entry for every SNP of the file. *)
Theorem C4_one_row_per_retained_snp (geno : geno_file)
    (acn_indices : list nat) (maf_cutoff : Q) (pG : prepared_G)
    (r : scan_result) :
  prepare_G geno acn_indices maf_cutoff = Ok pG →
  scan_complete (length (pG_SNP_indices pG)) r →
  (∀ csv,
     save_results geno (pG_SNP_indices pG) (pG_SNPs_MAF pG) r = Ok csv →
     length (data_lines csv) = length (pG_SNP_indices pG)) ∧
  (length (g_snps geno) ≤ length (g_positions geno) →
   ∃ csv, save_results geno (pG_SNP_indices pG) (pG_SNPs_MAF pG) r = Ok csv)%nat.
Proof.
  intros HpG [Hpv Heff]. split.
  - intros csv (chrs & poss & Hchrs & Hposs & ->)%save_results_Ok.
    simpl. rewrite length_fmap. apply py_zip5_length; try done.
    + by eapply chromosomes_of_length.
    + by eapply np_take_length.
    + by eapply prepare_G_SNPs_MAF_length.
  - intros Hpos.
    destruct (chromosomes_of_total (g_chr_regions geno) (pG_SNP_indices pG))
      as [chrs Hchrs].
    destruct (np_take_total (g_positions geno) (pG_SNP_indices pG))
      as [poss Hposs].
    { eapply Forall_impl; [by eapply prepare_G_SNP_indices_bound|].
      simpl. lia. }
    eexists. apply save_results_Ok. by exists chrs, poss.
Qed.

Lemma C4_one_row_per_retained_snp_witness :
  (∀ csv,
     save_results demo_geno (pG_SNP_indices demo_pG) (pG_SNPs_MAF demo_pG)
                  demo_scan = Ok csv →
     length (data_lines csv) = length (pG_SNP_indices demo_pG)) ∧
  (length (g_snps demo_geno) ≤ length (g_positions demo_geno) →
   ∃ csv, save_results demo_geno (pG_SNP_indices demo_pG)
                       (pG_SNPs_MAF demo_pG) demo_scan = Ok csv)%nat.
Proof.
  apply (C4_one_row_per_retained_snp demo_geno demo_acn_indices 0.1).
  - reflexivity.
  - split; reflexivity.
Defined.

(** C6: a written table starts with the header chr, pos, pvalue, maf, GVE
    and nothing else, and every data line holds exactly these five fields
    of one result row, in this order; no line starts with an index field. *)
Theorem C6_five_columns_no_index (geno : geno_file) (SNP_indices : list nat)
    (SNPs_MAF : list pyfloat) (r : scan_result) (csv : list (list cell)) :
  save_results geno SNP_indices SNPs_MAF r = Ok csv →
  head csv = Some [CStr "chr"; CStr "pos"; CStr "pvalue"; CStr "maf"; CStr "GVE"] ∧
  Forall (λ line, ∃ row,
            line = [CInt (Z.of_nat (r_chr row)); CInt (r_pos row);
                    CFloat (r_pvalue row); CFloat (r_maf row);
                    CFloat (r_effsize row)])
         (data_lines csv).
Proof.
  intros (chrs & poss & _ & _ & ->)%save_results_Ok.
  split; [done|]. simpl. apply Forall_fmap, Forall_forall.
  intros row _. by exists row.
Qed.

Lemma C6_five_columns_no_index_witness :
  head demo_table = Some [CStr "chr"; CStr "pos"; CStr "pvalue"; CStr "maf"; CStr "GVE"] ∧
  Forall (λ line, ∃ row,
            line = [CInt (Z.of_nat (r_chr row)); CInt (r_pos row);
                    CFloat (r_pvalue row); CFloat (r_maf row);
                    CFloat (r_effsize row)])
         (data_lines demo_table).
Proof.
  apply (C6_five_columns_no_index demo_geno [0; 2]%nat
           [Fin (1 # 3); Fin (1 # 3)] demo_scan).
  reflexivity.
Defined.

(** Every retained frequency is a number between the cutoff and one half. *)
Lemma prepare_G_SNPs_MAF_bounds geno idx cutoff pG :
  prepare_G geno idx cutoff = Ok pG →
  Forall (λ f, ∃ q, f = Fin q ∧ (cutoff <= q)%Q ∧ (q <= 1 # 2)%Q)
         (pG_SNPs_MAF pG).
Proof.
  intros HpG. pose proof (prepare_G_MAF_cases _ _ _ _ HpG) as Hcases.
  destruct (prepare_G_Ok _ _ _ _ HpG) as (G0 & _ & _ & Hidx & Hm & _).
  apply np_take_Ok in Hm. rewrite Forall_forall in Hcases.
  apply Forall_lookup. intros n f Hf.
  destruct (Forall2_lookup_r _ _ _ _ _ Hm Hf) as (i & Hi & HMi).
  apply list_elem_of_lookup_2 in Hi. rewrite Hidx, np_where_elem in Hi.
  rewrite list_lookup_fmap, HMi in Hi. injection Hi as Hge.
  destruct (Hcases f) as [->|(q & -> & Hq)];
    [by eapply list_elem_of_lookup_2|done|].
  exists q. split; [done|]. split; [by apply float_ge_Fin|done].
Qed.

(** C9: every 'maf' field of a written table is a number between
    [maf_cutoff] and one half. *)
Theorem C9_written_maf_between_cutoff_and_half (geno : geno_file)
    (acn_indices : list nat) (maf_cutoff : Q) (pG : prepared_G)
    (r : scan_result) (csv : list (list cell)) :
  prepare_G geno acn_indices maf_cutoff = Ok pG →
  save_results geno (pG_SNP_indices pG) (pG_SNPs_MAF pG) r = Ok csv →
  ∃ column,
    csv_column "maf" csv = Some column ∧
    Forall (λ c, ∃ q, c = CFloat (Fin q) ∧
                      (maf_cutoff <= q)%Q ∧ (q <= 1 # 2)%Q) column.
Proof.
  intros HpG (chrs & poss & _ & _ & ->)%save_results_Ok.
  eexists. split; [apply csv_column_maf|].
  apply Forall_fmap.
  eapply Forall_impl;
    [apply py_zip5_maf_Forall, (prepare_G_SNPs_MAF_bounds _ _ _ _ HpG)|].
  simpl. intros row (q & -> & Hq). by exists q.
Qed.

Lemma C9_written_maf_between_cutoff_and_half_witness :
  ∃ column,
    csv_column "maf" demo_table = Some column ∧
    Forall (λ c, ∃ q, c = CFloat (Fin q) ∧
                      (0.1 <= q)%Q ∧ (q <= 1 # 2)%Q) column.
Proof.
  apply (C9_written_maf_between_cutoff_and_half
           demo_geno demo_acn_indices 0.1 demo_pG demo_scan).
  - reflexivity.
  - reflexivity.
Defined.

(** Whatever the two scans returned, the two tables agree line for line in
    the fields chr, pos and maf. *)
Lemma tables_agree_line_for_line geno SNP_indices SNPs_MAF r r_nc csv csv_nc :
  save_results geno SNP_indices SNPs_MAF r = Ok csv →
  save_results geno SNP_indices SNPs_MAF r_nc = Ok csv_nc →
  ∀ i line line_nc,
    data_lines csv !! i = Some line →
    data_lines csv_nc !! i = Some line_nc →
    line !! 0%nat = line_nc !! 0%nat ∧
    line !! 1%nat = line_nc !! 1%nat ∧
    line !! 3%nat = line_nc !! 3%nat.
Proof.
  intros (chrs & poss & Hchrs & Hposs & ->)%save_results_Ok.
  intros (chrs' & poss' & Hchrs' & Hposs' & ->)%save_results_Ok.
  assert (chrs' = chrs) as -> by congruence.
  assert (poss' = poss) as -> by congruence.
  simpl. intros i line line_nc.
  rewrite !list_lookup_fmap.
  destruct (py_zip5 _ _ (pv20 r) _ _ !! i) as [row|] eqn:Hrow; [|done].
  destruct (py_zip5 _ _ (pv20 r_nc) _ _ !! i) as [row'|] eqn:Hrow'; [|done].
  intros [= <-] [= <-].
  apply py_zip5_lookup in Hrow as (Hc & Hp & Hm).
  apply py_zip5_lookup in Hrow' as (Hc' & Hp' & Hm').
  simpl. split_and!; congruence.
Qed.

(** The three columns that do not depend on the scan. *)
Lemma save_results_columns geno SNP_indices SNPs_MAF r csv :
  length SNPs_MAF = length SNP_indices →
  scan_complete (length SNP_indices) r →
  save_results geno SNP_indices SNPs_MAF r = Ok csv →
  ∃ chrs poss,
    chromosomes_of (g_chr_regions geno) SNP_indices = Ok chrs ∧
    np_take (g_positions geno) SNP_indices = Ok poss ∧
    csv_column "chr" csv = Some ((λ c, CInt (Z.of_nat c)) <$> chrs) ∧
    csv_column "pos" csv = Some (CInt <$> poss) ∧
    csv_column "maf" csv = Some (CFloat <$> SNPs_MAF).
Proof.
  intros Hlen [Hpv Heff] (chrs & poss & Hchrs & Hposs & ->)%save_results_Ok.
  exists chrs, poss. split; [done|]. split; [done|].
  rewrite csv_column_chr, csv_column_pos, csv_column_maf.
  pose proof (chromosomes_of_length _ _ _ Hchrs) as Hlc.
  pose proof (np_take_length _ _ _ Hposs) as Hlp.
  destruct (py_zip5_columns chrs poss (pv20 r) SNPs_MAF
              (candidate_effsizes r) (length SNP_indices))
    as (Hc & Hp & Hm); [done..|].
  rewrite (list_fmap_compose r_chr (λ c, CInt (Z.of_nat c))).
  rewrite (list_fmap_compose r_pos CInt).
  rewrite (list_fmap_compose r_maf CFloat).
  by rewrite Hc, Hp, Hm.
Qed.



(** C10: the table of the scan with kinship correction and the table of
    the scan without it, both written from the same [SNP_indices], the same
    [SNPs_MAF] and the same genotype file, have the same 'chr', 'pos' and
    'maf' columns (each scan having returned one p-value and one candidate
    effect size per retained SNP). *)
Theorem C10_tables_share_chr_pos_maf (geno : geno_file)
    (acn_indices : list nat) (maf_cutoff : Q) (pG : prepared_G)
    (r r_nc : scan_result) (csv csv_nc : list (list cell)) :
  prepare_G geno acn_indices maf_cutoff = Ok pG →
  scan_complete (length (pG_SNP_indices pG)) r →
  scan_complete (length (pG_SNP_indices pG)) r_nc →
  save_results geno (pG_SNP_indices pG) (pG_SNPs_MAF pG) r = Ok csv →
  save_results geno (pG_SNP_indices pG) (pG_SNPs_MAF pG) r_nc = Ok csv_nc →
  ∃ chr_column pos_column maf_column,
    csv_column "chr" csv = Some chr_column ∧
    csv_column "chr" csv_nc = Some chr_column ∧
    csv_column "pos" csv = Some pos_column ∧
    csv_column "pos" csv_nc = Some pos_column ∧
    csv_column "maf" csv = Some maf_column ∧
    csv_column "maf" csv_nc = Some maf_column ∧
    length chr_column = length (pG_SNP_indices pG) ∧
    length pos_column = length (pG_SNP_indices pG) ∧
    length maf_column = length (pG_SNP_indices pG).
Proof.
  intros HpG Hr Hr_nc Hcsv Hcsv_nc.
  pose proof (prepare_G_SNPs_MAF_length _ _ _ _ HpG) as Hlen.
  destruct (save_results_columns _ _ _ _ _ Hlen Hr Hcsv)
    as (chrs & poss & Hchrs & Hposs & Hc & Hp & Hm).
  destruct (save_results_columns _ _ _ _ _ Hlen Hr_nc Hcsv_nc)
    as (chrs' & poss' & Hchrs' & Hposs' & Hc' & Hp' & Hm').
  assert (chrs' = chrs) as -> by congruence.
  assert (poss' = poss) as -> by congruence.
  eexists _, _, _. split_and!; try done.
  - rewrite length_fmap. by eapply chromosomes_of_length.
  - rewrite length_fmap. by eapply np_take_length.
  - by rewrite length_fmap.
Qed.

Lemma C10_tables_share_chr_pos_maf_witness :
  ∃ chr_column pos_column maf_column,
    csv_column "chr" demo_table = Some chr_column ∧
    csv_column "chr" demo_table_nc = Some chr_column ∧
    csv_column "pos" demo_table = Some pos_column ∧
    csv_column "pos" demo_table_nc = Some pos_column ∧
    csv_column "maf" demo_table = Some maf_column ∧
    csv_column "maf" demo_table_nc = Some maf_column ∧
    length chr_column = length (pG_SNP_indices demo_pG) ∧
    length pos_column = length (pG_SNP_indices demo_pG) ∧
    length maf_column = length (pG_SNP_indices demo_pG).
Proof.
  apply (C10_tables_share_chr_pos_maf demo_geno demo_acn_indices 0.1 demo_pG
           demo_scan demo_scan_nc).
  - reflexivity.
  - split; reflexivity.
  - split; reflexivity.
  - reflexivity.
  - reflexivity.
Defined.

(** ** Chromosome attribution *)

(** C5: with chromosome regions that follow one another from 0 on and
    cover the SNPs of the file, the binary search gives every retained SNP
    the chromosome whose region holds its index, and along [SNP_indices]
    (which is in ascending order) the chromosome numbers never decrease. *)
Theorem C5_chromosomes_monotone_and_consistent (geno : geno_file)
    (acn_indices : list nat) (maf_cutoff : Q) (pG : prepared_G) :
  prepare_G geno acn_indices maf_cutoff = Ok pG →
  contiguous 0 (g_chr_regions geno) →
  Z.of_nat (length (g_snps geno)) ≤ regions_end 0 (g_chr_regions geno) →
  ∃ chromosomes,
    chromosomes_of (g_chr_regions geno) (pG_SNP_indices pG) = Ok chromosomes ∧
    StronglySorted lt (pG_SNP_indices pG) ∧
    StronglySorted le chromosomes ∧
    Forall2 (in_chromosome (g_chr_regions geno))
            (pG_SNP_indices pG) chromosomes.
Proof.
  intros HpG Hc Hend.
  destruct (chromosomes_of_total (g_chr_regions geno) (pG_SNP_indices pG))
    as [chrs Hchrs].
  assert (StronglySorted lt (pG_SNP_indices pG)) as Hsorted.
  { destruct (prepare_G_Ok _ _ _ _ HpG) as (_ & _ & _ & -> & _).
    apply np_where_sorted. }
  exists chrs. split_and!; [done|done|..].
  - eapply chromosomes_of_sorted; [|done..]. by eapply contiguous_ascending.
  - pose proof (prepare_G_SNP_indices_bound _ _ _ _ HpG) as Hb.
    apply chromosomes_of_Ok in Hchrs.
    induction Hchrs as [|i c idx chrs (k & Hk & ->) _ IH]; [constructor|].
    apply Forall_cons in Hb as [Hi Hb].
    apply StronglySorted_inv in Hsorted as [Hsorted _].
    constructor; [|by apply IH].
    destruct (bisect_in_chromosome (g_chr_regions geno) i Hc) as (k' & Hk' & Hin);
      [lia|].
    by assert (k' = k) as -> by congruence.
Qed.

Lemma C5_chromosomes_monotone_and_consistent_witness :
  ∃ chromosomes,
    chromosomes_of (g_chr_regions demo_geno) (pG_SNP_indices demo_pG)
      = Ok chromosomes ∧
    StronglySorted lt (pG_SNP_indices demo_pG) ∧
    StronglySorted le chromosomes ∧
    Forall2 (in_chromosome (g_chr_regions demo_geno))
            (pG_SNP_indices demo_pG) chromosomes.
Proof.
  apply (C5_chromosomes_monotone_and_consistent
           demo_geno demo_acn_indices 0.1 demo_pG).
  - reflexivity.
  - simpl. lia.
  - vm_compute. discriminate.
Defined.

(** ** The manual checks *)

Section checks.
Variable k : kernel.
Hypothesis HY : two_axes_if_array (var_Y k).
Hypothesis HG : two_axes_if_array (var_G k).
Hypothesis HK : two_axes_if_array (var_K k).

Lemma check_Y_cases :
  (Y_check_violated k ∧ ∃ msg, check_Y k = Raise (ValueError msg)) ∨
  (¬ Y_check_violated k ∧ is_Some (nrows (var_Y k)) ∧
   ∃ out, check_Y k = Ok (k, out)).
Proof.
  unfold check_Y, Y_check_violated.
  destruct (var_Y k) as [[|r [|c sY]] dY|]; simpl in *; try lia.
  - destruct (Nat.eqb_spec c 1) as [->|Hc]; simpl.
    + right. split_and!; [|by eexists|by eexists].
      by intros [|[]].
    + left. split; [|by eexists].
      right. by intros [= ->].
  - left. split; [by left|by eexists].
Qed.

Lemma check_G_cases :
  is_Some (nrows (var_Y k)) →
  (G_check_violated k ∧ ∃ msg, check_G k = Raise (ValueError msg)) ∨
  (¬ G_check_violated k ∧ ∃ out, check_G k = Ok (k, out)).
Proof.
  unfold check_G, G_check_violated. intros [y0 Hy0].
  destruct (var_Y k) as [sY dY|]; simpl in *; [|done].
  destruct (var_G k) as [[|g0 [|g1 sG]] dG|]; simpl in *; try lia.
  - unfold tuple_get. rewrite Hy0. simpl.
    destruct (Nat.eqb_spec g0 y0) as [->|Hne]; simpl.
    + right. split; [|by eexists]. by intros [|[]].
    + left. split; [|by eexists]. right. by intros [= ->].
  - left. split; [by left|by eexists].
Qed.

Lemma check_K_cases :
  is_Some (nrows (var_Y k)) →
  (K_check_violated k ∧ ∃ msg, check_K k = Raise (ValueError msg)) ∨
  (¬ K_check_violated k ∧ ∃ out, check_K k = Ok (k, out)).
Proof.
  unfold check_K, K_check_violated. intros [y0 Hy0].
  destruct (var_Y k) as [sY dY|]; simpl in *; [|done].
  destruct (var_K k) as [[|k0 [|k1 sK]] dK|]; simpl in *; try lia.
  - unfold tuple_get. rewrite Hy0. simpl.
    destruct (Nat.eqb_spec k0 y0) as [->|Hne0]; simpl.
    + destruct (Nat.eqb_spec k1 y0) as [->|Hne1]; simpl.
      * right. split; [|by eexists]. by intros [|[[]|[]]].
      * left. split; [|by eexists]. right. right. by intros [= ->].
    + left. split; [|by eexists]. right. left. by intros [= ->].
  - left. split; [by left|by eexists].
Qed.

Lemma check_inputs_cases :
  ((Y_check_violated k ∨ G_check_violated k ∨ K_check_violated k) ∧
   ∃ msg, check_inputs k = Raise (ValueError msg)) ∨
  (¬ (Y_check_violated k ∨ G_check_violated k ∨ K_check_violated k) ∧
   ∃ out, check_inputs k = Ok (k, out)).
Proof.
  unfold check_inputs.
  destruct check_Y_cases as [[HvY [msg ->]]|(HnY & HsY & [out1 ->])].
  { left. split; [by left|by exists msg]. }
  simpl.
  destruct (check_G_cases HsY) as [[HvG [msg ->]]|(HnG & [out2 ->])].
  { left. split; [by right; left|by exists msg]. }
  simpl.
  destruct (check_K_cases HsY) as [[HvK [msg ->]]|(HnK & [out3 ->])].
  { left. split; [by right; right|by exists msg]. }
  simpl. right. split; [by intros [|[|]]|by eexists].
Qed.
End checks.

(** A one-dimensional [Y] has no [shape[1]]: cell 4a stops with the
    IndexError of the tuple access, before any of its own messages. *)
Example check_Y_one_dimensional :
  check_Y {| var_Y := NdArray [3]%nat [[Fin 1]; [Fin 2]; [Fin 3]];
             var_G := NotArray; var_K := NotArray |} = Raise IndexError.
Proof. reflexivity. Qed.

(** A one-dimensional [G] with as many entries as [Y] has rows passes the
    comparison of cell 4b; the cell then stops at its last line, where
    [G.shape[1]] is printed. *)
Example check_G_one_dimensional :
  ¬ G_check_violated
      {| var_Y := NdArray [3; 1]%nat [[Fin 1]; [Fin 2]; [Fin 3]];
         var_G := NdArray [3]%nat [[0; 1; 0]]; var_K := NotArray |}.
Proof. by intros [|]. Qed.

Example check_G_one_dimensional_stops :
  check_G {| var_Y := NdArray [3; 1]%nat [[Fin 1]; [Fin 2]; [Fin 3]];
             var_G := NdArray [3]%nat [[0; 1; 0]]; var_K := NotArray |}
  = Raise IndexError.
Proof. reflexivity. Qed.

(** Whatever the variables hold, the cells raise one of their messages only
    when a check is violated, they raise nothing but a ValueError or the
    IndexError of a shape access, and a run that finishes has found no
    check violated and returns the variables as they were. *)
Lemma check_inputs_sound (k : kernel) :
  ((∃ msg, check_inputs k = Raise (ValueError msg)) →
   Y_check_violated k ∨ G_check_violated k ∨ K_check_violated k) ∧
  (∀ e, check_inputs k = Raise e → e = IndexError ∨ ∃ msg, e = ValueError msg) ∧
  (∀ k' out, check_inputs k = Ok (k', out) →
   k' = k ∧ ¬ (Y_check_violated k ∨ G_check_violated k ∨ K_check_violated k)).
Proof.
  destruct k as [Y G K].
  unfold check_inputs, check_Y, check_G, check_K,
    Y_check_violated, G_check_violated, K_check_violated, tuple_get.
  destruct Y as [[|y0 [|y1 sY]] dY|]; simpl;
  try (destruct (Nat.eqb_spec y1 1) as [->|Hy1]; simpl;
   [destruct G as [[|g0 [|g1 sG]] dG|]; simpl;
    try (destruct (Nat.eqb_spec g0 y0) as [->|Hg0]; simpl);
    try (destruct K as [[|k0 [|k1 sK]] dK|]; simpl;
    try (destruct (Nat.eqb_spec k0 y0) as [->|Hk0]; simpl);
    try (destruct (Nat.eqb_spec k1 y0) as [->|Hk1]; simpl))|]).
  all: try (split_and!;
    [first [by intros [? [=]]|intros _; intuition congruence]
    |intros ? [= <-]; first [by left|right; by eexists]
    |by intros ? ? [=]]).
  split_and!; [by intros [? [=]]|by intros ? [=]|].
  intros k' out [= <- <-]. split; [done|].
  by intros [[|[]]|[[|[]]|[|[[]|[]]]]].
Qed.




(** ** Data frames with unique keys *)

Lemma unique_key_row (df : DataFrame) r r' :
  NoDup (index df) → r ∈ df → r' ∈ df → r.1 = r'.1 → r = r'.
Proof.
  unfold index. induction df as [|r0 df IH]; intros Hnd Hr Hr' Hk;
    [by apply elem_of_nil in Hr|].
  rewrite fmap_cons in Hnd. apply NoDup_cons in Hnd as [Hnotin Hnd].
  apply elem_of_cons in Hr as [->|Hr]; apply elem_of_cons in Hr' as [->|Hr'].
  - done.
  - exfalso. apply Hnotin. rewrite Hk. apply list_elem_of_fmap. by exists r'.
  - exfalso. apply Hnotin. rewrite <- Hk. apply list_elem_of_fmap. by exists r.
  - by apply IH.
Qed.

Lemma filter_none {A : Type} (P : A → Prop) `{∀ x, Decision (P x)}
    (l : list A) :
  Forall (λ x, ¬ P x) l → filter P l = [].
Proof.
  induction 1 as [|x l Hx _ IH]; [done|]. by rewrite filter_cons_False.
Qed.

Lemma unique_key_filter (df : DataFrame) r :
  NoDup (index df) → r ∈ df → filter (λ r', r'.1 = r.1) df = [r].
Proof.
  unfold index. induction df as [|r0 df IH]; intros Hnd Hr;
    [by apply elem_of_nil in Hr|].
  rewrite fmap_cons in Hnd. apply NoDup_cons in Hnd as [Hnotin Hnd].
  apply elem_of_cons in Hr as [->|Hr].
  - rewrite filter_cons_True by done. f_equal.
    apply filter_none, Forall_forall. intros r' Hr' Hk.
    apply Hnotin. rewrite <- Hk. apply list_elem_of_fmap. by exists r'.
  - rewrite filter_cons_False; [by apply IH|].
    intros Hk. apply Hnotin. rewrite Hk. apply list_elem_of_fmap. by exists r.
Qed.

(** On a frame with unique keys, [loc] with labels of the index returns
    one row per label, in the order of the labels. *)
Lemma loc_unique_keys (df : DataFrame) labels :
  NoDup (index df) →
  Forall (λ l, l ∈ index df) labels →
  ∃ rows, loc labels df = Ok rows ∧ index rows = labels ∧
          Forall (λ r, r ∈ df) rows.
Proof.
  intros Hnd. induction 1 as [|l labels Hl _ (rows & Hrows & Hidx & Hin)].
  - by exists [].
  - apply list_elem_of_fmap in Hl as (r & -> & Hr).
    exists (r :: rows). simpl.
    rewrite (unique_key_filter df r Hnd Hr), Hrows. simpl.
    split_and!; [done|by rewrite <- Hidx|by constructor].
Qed.

(** Two lists of rows of one frame with unique keys that carry the same
    labels are the same list. *)
Lemma rows_determined_by_labels (df : DataFrame) rows rows' :
  NoDup (index df) →
  Forall (λ r, r ∈ df) rows → Forall (λ r, r ∈ df) rows' →
  index rows = index rows' → rows = rows'.
Proof.
  intros Hnd Hin. revert rows'.
  induction Hin as [|r rows Hr _ IH]; intros [|r' rows'] Hin' Hidx;
    try done.
  apply Forall_cons in Hin' as [Hr' Hin'].
  injection Hidx as Hk Hidx. f_equal; [|by apply IH].
  by eapply unique_key_row.
Qed.

(** ** First positions *)

Lemma np_where_first_elem a x :
  x ∈ a → np_where_first a x = Ok (first_pos a x) ∧ a !! first_pos a x = Some x.
Proof.
  intros Hx. unfold np_where_first, first_pos.
  destruct (list_find_elem_of (λ y, y = x) a x Hx eq_refl) as [[i y] Hfind].
  rewrite Hfind. simpl.
  apply list_find_Some in Hfind as (Hi & -> & _). done.
Qed.

Lemma np_where_first_for a labels :
  Forall (λ x, x ∈ a) labels →
  py_for (np_where_first a) labels = Ok (first_pos a <$> labels).
Proof.
  intros H. apply py_for_fmap.
  eapply Forall_impl; [exact H|]. intros x Hx. by apply np_where_first_elem.
Qed.

Lemma first_pos_NoDup a labels :
  Forall (λ x, x ∈ a) labels → NoDup labels → NoDup (first_pos a <$> labels).
Proof.
  intros Hin. apply NoDup_fmap_2_strong. intros x y Hx Hy Heq.
  rewrite Forall_forall in Hin.
  destruct (np_where_first_elem a x (Hin x Hx)) as [_ Hax].
  destruct (np_where_first_elem a y (Hin y Hy)) as [_ Hay].
  rewrite Heq in Hax. congruence.
Qed.

(** ** Sorting positions *)

Lemma py_sort_sorted l : StronglySorted le (py_sort l).
Proof. apply StronglySorted_merge_sort; apply _. Qed.

Lemma py_sort_Permutation l : py_sort l ≡ₚ l.
Proof. apply merge_sort_Permutation. Qed.

Lemma py_sort_of_Permutation l l' : l ≡ₚ l' → py_sort l = py_sort l'.
Proof.
  intros Hp. apply (StronglySorted_unique le); [apply py_sort_sorted..|].
  by rewrite !py_sort_Permutation.
Qed.

Lemma sorted_NoDup_lt l : StronglySorted le l → NoDup l → StronglySorted lt l.
Proof.
  induction 1 as [|i l _ IH Hle]; intros Hnd; [constructor|].
  apply NoDup_cons in Hnd as [Hnotin Hnd].
  constructor; [by apply IH|].
  apply Forall_forall. intros j Hj.
  rewrite Forall_forall in Hle. specialize (Hle j Hj).
  assert (i ≠ j) by (by intros ->). lia.
Qed.

Lemma increasing_sorted l : StronglySorted lt l → increasing l = true.
Proof.
  induction 1 as [|i l Hl IH Hlt]; [done|].
  destruct l as [|j l]; [done|].
  apply Forall_cons in Hlt as [Hij _]. simpl in *.
  rewrite IH. by destruct (Nat.ltb_spec i j); [|lia].
Qed.

Lemma py_sort_increasing l : NoDup l → StronglySorted lt (py_sort l).
Proof.
  intros Hnd. apply sorted_NoDup_lt; [apply py_sort_sorted|].
  by rewrite py_sort_Permutation.
Qed.

(** ** Section 3a on a phenotype table with unique keys *)

Lemma genotyped_elem geno pheno x :
  x ∈ genotyped geno pheno ↔ x ∈ g_accessions geno ∧ x ∈ index pheno.
Proof.
  unfold genotyped, np_contains.
  by rewrite list_elem_of_filter, bool_decide_eq_true.
Qed.

Lemma positions_in_range (a : list string) labels i :
  Forall (λ x, x ∈ a) labels →
  i ∈ py_sort (first_pos a <$> labels) →
  ∃ x, x ∈ labels ∧ a !! i = Some x ∧ i = first_pos a x.
Proof.
  intros Hin Hi. rewrite py_sort_Permutation in Hi.
  apply list_elem_of_fmap in Hi as (x & -> & Hx). exists x.
  split_and!; [done| |done].
  rewrite Forall_forall in Hin. by apply np_where_first_elem, Hin.
Qed.

(** With unique keys the cell succeeds; [acn_indices] are the first
    positions of the genotyped labels in ascending order, and [pheno] ends
    up with exactly the rows of these accessions in this order. *)
Lemma prepare_Y_unique_keys (pheno : DataFrame) (geno : geno_file) :
  NoDup (index pheno) →
  ∃ pY,
    prepare_Y pheno geno = Ok pY ∧
    pY_acn_indices pY =
      py_sort (first_pos (g_accessions geno) <$> genotyped geno pheno) ∧
    StronglySorted lt (pY_acn_indices pY) ∧
    h5_take (g_accessions geno) (pY_acn_indices pY) = Ok (index (pY_pheno pY)) ∧
    Forall (λ r, r ∈ pheno) (pY_pheno pY) ∧
    pY_Y pY = to_numpy (pY_pheno pY).
Proof.
  intros Hnd. set (a := g_accessions geno).
  assert (Forall (λ l, l ∈ index pheno) (genotyped geno pheno)) as Hsub.
  { apply Forall_forall. by intros x [_ ?]%genotyped_elem. }
  assert (Forall (λ x, x ∈ a) (genotyped geno pheno)) as Hgen.
  { apply Forall_forall. by intros x [? _]%genotyped_elem. }
  assert (NoDup (genotyped geno pheno)) as Hnd1 by by apply NoDup_filter.
  destruct (loc_unique_keys pheno _ Hnd Hsub) as (pheno1 & Hloc1 & Hidx1 & Hin1).
  pose proof (np_where_first_for a _ Hgen) as Hfor.
  pose proof (py_sort_increasing _ (first_pos_NoDup a _ Hgen Hnd1)) as Hsorted.
  set (acn_indices := py_sort (first_pos a <$> genotyped geno pheno)) in *.
  destruct (np_take_total a acn_indices) as [acn_order Hord].
  { apply Forall_forall. intros i (x & _ & Hx & _)%positions_in_range; [|done].
    by eapply lookup_lt_Some. }
  assert (h5_take a acn_indices = Ok acn_order) as Hh5.
  { unfold h5_take. by rewrite (increasing_sorted _ Hsorted). }
  assert (Forall (λ l, l ∈ index pheno1) acn_order) as Hsub2.
  { rewrite Hidx1. apply Forall_lookup. intros n x Hx.
    apply np_take_Ok in Hord.
    destruct (Forall2_lookup_r _ _ _ _ _ Hord Hx) as (i & Hi & Hai).
    apply list_elem_of_lookup_2 in Hi.
    apply positions_in_range in Hi as (y & Hy & Hay & _); [|done]. congruence. }
  destruct (loc_unique_keys pheno1 acn_order) as (pheno2 & Hloc2 & Hidx2 & Hin2);
    [by rewrite Hidx1|done|].
  exists {| pY_pheno := pheno2; pY_acn_indices := acn_indices;
            pY_Y := to_numpy pheno2 |}.
  simpl. split_and!; try done.
  - unfold prepare_Y. fold (genotyped geno pheno). rewrite Hloc1. simpl.
    rewrite Hidx1. fold a. rewrite Hfor. simpl.
    fold acn_indices. rewrite Hh5. simpl. by rewrite Hloc2.
  - by rewrite Hidx2.
  - eapply Forall_impl; [exact Hin2|]. intros r Hr.
    rewrite Forall_forall in Hin1. by apply Hin1.
Qed.

(** ** Loading is insensitive to the order of the rows *)

Lemma load_pheno_Permutation csv csv' :
  csv ≡ₚ csv' → load_pheno csv ≡ₚ load_pheno csv'.
Proof. intros Hp. unfold load_pheno. by rewrite Hp. Qed.

Lemma load_pheno_NoDup csv : NoDup (csv.*1) → NoDup (index (load_pheno csv)).
Proof.
  unfold load_pheno, index, encode_index. intros Hnd.
  induction csv as [|[key v] csv IH]; [constructor|].
  rewrite fmap_cons in Hnd. apply NoDup_cons in Hnd as [Hnotin Hnd].
  rewrite fmap_cons. simpl.
  destruct (decide (isna v = false)) as [Hv|Hv].
  - rewrite filter_cons_True by done. rewrite fmap_cons.
    apply NoDup_cons. split; [|by apply IH].
    simpl. intros ([k' v'] & Hk & [_ Hin]%list_elem_of_filter)%list_elem_of_fmap.
    apply list_elem_of_fmap in Hin as ([k'' v''] & [= -> ->] & Hin).
    simpl in Hk. apply (inj pretty) in Hk as ->.
    apply Hnotin, list_elem_of_fmap. by exists (k'', v'').
  - rewrite filter_cons_False by done. by apply IH.
Qed.

(** Taking entries at ascending positions keeps their order. *)
Lemma shift_positions {A : Type} (x : A) (a : list A) idx k :
  Forall (λ j, 0 < j)%nat idx →
  StronglySorted lt idx →
  Forall2 (λ i y, (x :: a) !! i = Some y) idx k →
  StronglySorted lt (pred <$> idx) ∧
  Forall2 (λ i y, a !! i = Some y) (pred <$> idx) k.
Proof.
  intros Hpos Hs H. revert Hpos Hs.
  induction H as [|i y idx k Hi _ IH]; intros Hpos Hs.
  - split; constructor.
  - apply Forall_cons in Hpos as [Hi0 Hpos].
    apply StronglySorted_inv in Hs as [Hs Hlt].
    destruct (IH Hpos Hs) as [IHs IHf]. rewrite fmap_cons. split.
    + constructor; [done|]. apply Forall_fmap.
      rewrite Forall_forall in Hlt, Hpos. apply Forall_forall.
      intros j Hj. specialize (Hlt j Hj). simpl. lia.
    + constructor; [|done]. destruct i as [|i]; [lia|done].
Qed.

Lemma np_take_sublist {A : Type} (a : list A) : ∀ idx k,
  StronglySorted lt idx → np_take a idx = Ok k → k `sublist_of` a.
Proof.
  induction a as [|x a IH]; intros idx k Hs Hk; apply np_take_Ok in Hk.
  - destruct Hk as [|i y idx k Hi _]; [constructor|done].
  - destruct Hk as [|i y idx k Hi Hk]; [apply sublist_nil_l|].
    apply StronglySorted_inv in Hs as [Hs Hlt].
    assert (Forall (λ j, 0 < j)%nat idx) as Hpos.
    { eapply Forall_impl; [exact Hlt|]. simpl. lia. }
    destruct (shift_positions x a idx k Hpos Hs Hk) as [Hs' Hk'].
    destruct i as [|i]; simpl in Hi.
    + injection Hi as ->. apply sublist_skip.
      apply (IH (pred <$> idx)); [done|by apply np_take_Ok].
    + apply sublist_cons. apply (IH (i :: (pred <$> idx))).
      * constructor; [done|]. apply Forall_fmap.
        eapply Forall_impl; [exact Hlt|]. simpl. lia.
      * apply np_take_Ok. by constructor.
Qed.

(** C8: for a phenotype table with unique accession keys, loading and
    aligning any permutation of its rows succeeds with the same result: the
    same [Y], the same [pheno] and the same [acn_indices]; the rows of [Y]
    are the trait values of rows of the table, in the order in which their
    accessions occur in the genotype file. *)
Theorem C8_loading_is_order_irrelevant (csv csv' : list (Z * pyfloat))
    (geno : geno_file) :
  NoDup (csv.*1) →
  csv ≡ₚ csv' →
  ∃ pY,
    prepare_Y (load_pheno csv) geno = Ok pY ∧
    prepare_Y (load_pheno csv') geno = Ok pY ∧
    pY_Y pY = to_numpy (pY_pheno pY) ∧
    Forall (λ r, r ∈ load_pheno csv) (pY_pheno pY) ∧
    index (pY_pheno pY) `sublist_of` g_accessions geno.
Proof.
  intros Hnd Hperm.
  pose proof (load_pheno_NoDup csv Hnd) as Hnd1.
  pose proof (load_pheno_Permutation csv csv' Hperm) as Hperm1.
  assert (NoDup (index (load_pheno csv'))) as Hnd1'.
  { unfold index. by rewrite <- Hperm1. }
  destruct (prepare_Y_unique_keys (load_pheno csv) geno Hnd1)
    as ([ph idx Y] & HpY & Hidx & Hs & Hh5 & Hin & HY).
  destruct (prepare_Y_unique_keys (load_pheno csv') geno Hnd1')
    as ([ph' idx' Y'] & HpY' & Hidx' & Hs' & Hh5' & Hin' & HY').
  simpl in *.
  assert (idx' = idx) as ->.
  { rewrite Hidx, Hidx'. apply py_sort_of_Permutation.
    unfold genotyped, index. by rewrite Hperm1. }
  assert (ph' = ph) as ->.
  { apply (rows_determined_by_labels (load_pheno csv)); [done| |done|congruence].
    eapply Forall_impl; [exact Hin'|]. intros r Hr. by rewrite Hperm1. }
  assert (Y' = Y) as -> by congruence.
  eexists. split_and!; [done|done|done|done|]. simpl.
  unfold h5_take in Hh5. destruct (increasing idx); [|done].
  by eapply np_take_sublist.
Qed.

Lemma C8_loading_is_order_irrelevant_witness :
  ∃ pY,
    prepare_Y (load_pheno demo_csv) demo_geno = Ok pY ∧
    prepare_Y (load_pheno (reverse demo_csv)) demo_geno = Ok pY ∧
    pY_Y pY = to_numpy (pY_pheno pY) ∧
    Forall (λ r, r ∈ load_pheno demo_csv) (pY_pheno pY) ∧
    index (pY_pheno pY) `sublist_of` g_accessions demo_geno.
Proof.
  apply (C8_loading_is_order_irrelevant demo_csv (reverse demo_csv) demo_geno).
  - refine (bool_decide_unpack _ _). vm_compute. exact I.
  - symmetry. apply reverse_Permutation.
Defined.

(** ** Alignment of the three inputs of the scan *)

Lemma py_sort_sorted_id l : StronglySorted lt l → py_sort l = l.
Proof.
  intros Hs. apply (StronglySorted_unique le).
  - apply py_sort_sorted.
  - induction Hs as [|i l _ IH Hlt]; constructor; [done|].
    eapply Forall_impl; [exact Hlt|]. simpl. lia.
  - apply py_sort_Permutation.
Qed.

(** With unique keys in the phenotype table, the rows of [Y] and the rows
    of [G] always belong to the same accessions in the same order; the
    rows and columns of [K] do too when the kinship file lists its
    accessions exactly as the genotype file does. *)
Lemma prepared_alignment csv geno kin cutoff p :
  NoDup (csv.*1) →
  prepare csv geno kin cutoff = Ok p →
  p_Y_accessions p = p_G_accessions p ∧
  (k_accessions kin = g_accessions geno →
   p_K_accessions p = p_Y_accessions p).
Proof.
  intros Hnd Hp.
  destruct (prepare_Y_unique_keys (load_pheno csv) geno (load_pheno_NoDup csv Hnd))
    as ([ph idx Y] & HpY & Hidx & Hs & Hh5 & Hin & HY).
  simpl in *. unfold prepare in Hp. rewrite HpY in Hp. simpl in Hp.
  destruct (prepare_G geno idx cutoff) as [pG|e]; [|done]. simpl in Hp.
  rewrite Hh5 in Hp. simpl in Hp.
  destruct (prepare_K ph kin) as [pK|e] eqn:HpK; [|done]. simpl in Hp.
  destruct (h5_take (k_accessions kin) (pK_acn_indices pK)) as [K_acn|e] eqn:HK;
    [|done].
  simpl in Hp. injection Hp as <-. simpl. split; [done|].
  intros Hsame.
  assert (py_for (np_where_first (g_accessions geno)) (index ph) = Ok idx)
    as Hfor.
  { apply py_for_Ok.
    assert (Forall (λ x, x ∈ g_accessions geno) (genotyped geno (load_pheno csv)))
      as Hgen.
    { apply Forall_forall. by intros x [? _]%genotyped_elem. }
    unfold h5_take in Hh5. destruct (increasing idx); [|done].
    apply np_take_Ok in Hh5.
    apply Forall2_same_length_lookup.
    split; [symmetry; by eapply Forall2_length|].
    intros n x i Hx Hi.
    pose proof (Forall2_lookup_lr _ _ _ _ _ _ Hh5 Hi Hx) as Hai.
    apply list_elem_of_lookup_2 in Hi. rewrite Hidx in Hi.
    apply positions_in_range in Hi as (y & Hy & Hay & ->); [|done].
    assert (x = y) as -> by congruence.
    rewrite Forall_forall in Hgen. by apply np_where_first_elem, Hgen. }
  unfold prepare_K in HpK. rewrite Hsame, Hfor in HpK. simpl in HpK.
  rewrite (py_sort_sorted_id idx Hs) in HpK.
  destruct (h5_take (k_kinship kin) idx) as [rows|e]; [|done]. simpl in HpK.
  destruct (py_for _ rows) as [K|e]; [|done]. simpl in HpK.
  injection HpK as <-. simpl in HK. rewrite Hsame in HK. congruence.
Qed.

(** When the kinship file lacks a phenotyped and genotyped accession,
    section 3c stops with the IndexError of [np.where(...)[0][0]]. *)
Example kinship_lacks_accession :
  prepare swapped_csv swapped_geno
          {| k_accessions := ["1"]; k_kinship := [[Fin 11]] |} 0.1
  = Raise IndexError.
Proof. reflexivity. Qed.

(** C1: on the two-accession data set whose kinship file lists the
    accessions in the opposite order, the preparation succeeds; the rows of
    [Y] and of [G] are those of accessions 1 and 2 in this order, and the
    rows and columns of [K] are those of accessions 2 and 1: the three
    inputs of the scan are not in the same accession order. *)
Theorem C1_kinship_keeps_order_of_kinship_file :
  ∃ p,
    prepare swapped_csv swapped_geno swapped_kin 0.1 = Ok p ∧
    p_Y p = [[Fin 0.5]; [Fin 1.5]] ∧
    p_K p = [[Fin 22; Fin 21]; [Fin 12; Fin 11]] ∧
    p_Y_accessions p = ["1"; "2"] ∧
    p_G_accessions p = ["1"; "2"] ∧
    p_K_accessions p = ["2"; "1"] ∧
    p_K_accessions p ≠ p_Y_accessions p.
Proof.
  eexists. split; [reflexivity|]. simpl. split_and!; done.
Qed.

(** * Further properties of the notebook *)

(** ** Section 3a, whatever the keys *)

Lemma loc_Ok_rows labels (df : DataFrame) rows :
  loc labels df = Ok rows →
  Forall (λ r, r ∈ df ∧ r.1 ∈ labels) rows ∧ labels `sublist_of` index rows.
Proof.
  revert rows. induction labels as [|l labels IH]; intros rows; simpl.
  - intros [= <-]. split; constructor.
  - destruct (filter (λ r, r.1 = l) df) as [|r0 rows0] eqn:Hf; [done|].
    destruct (loc labels df) as [rest|e]; [|done].
    intros [= <-]. destruct (IH rest eq_refl) as [Hrest Hsub].
    assert (Forall (λ r, r ∈ df ∧ r.1 = l) (r0 :: rows0)) as Hrows.
    { rewrite <- Hf. apply Forall_forall.
      by intros r [? ?]%list_elem_of_filter. }
    rewrite app_comm_cons. split.
    + apply Forall_app. split.
      * eapply Forall_impl; [exact Hrows|]. simpl.
        intros r [? ->]. split; [done|]. by left.
      * eapply Forall_impl; [exact Hrest|]. simpl.
        intros r [? ?]. split; [done|]. by right.
    + apply Forall_cons in Hrows as [[_ Hr0] _].
      unfold index. rewrite fmap_app, fmap_cons, Hr0.
      apply sublist_skip.
      etransitivity; [exact Hsub|]. by apply sublist_inserts_l.
Qed.

(** What [prepare_Y] returns, line by line of the cell. *)
Lemma prepare_Y_Ok pheno geno pY :
  prepare_Y pheno geno = Ok pY →
  ∃ pheno1 idx0 acn_order,
    loc (genotyped geno pheno) pheno = Ok pheno1 ∧
    py_for (np_where_first (g_accessions geno)) (index pheno1) = Ok idx0 ∧
    pY_acn_indices pY = py_sort idx0 ∧
    increasing (py_sort idx0) = true ∧
    np_take (g_accessions geno) (py_sort idx0) = Ok acn_order ∧
    loc acn_order pheno1 = Ok (pY_pheno pY) ∧
    pY_Y pY = to_numpy (pY_pheno pY).
Proof.
  unfold prepare_Y. fold (genotyped geno pheno). intros H.
  destruct (loc (genotyped geno pheno) pheno) as [pheno1|e] eqn:Hloc1; [|done].
  simpl in H.
  destruct (py_for _ (index pheno1)) as [idx0|e] eqn:Hfor; [|done].
  simpl in H. unfold h5_take in H.
  destruct (increasing (py_sort idx0)) eqn:Hinc; [|done].
  destruct (np_take _ (py_sort idx0)) as [acn_order|e] eqn:Hord; [|done].
  simpl in H.
  destruct (loc acn_order pheno1) as [pheno2|e] eqn:Hloc2; [|done].
  simpl in H. injection H as <-. simpl.
  exists pheno1, idx0, acn_order. split_and!; done.
Qed.

(** X1: whenever section 3a succeeds on the loaded table, row [i] of [Y]
    holds exactly one value; that value is not NaN and is the value of a
    line of the CSV whose key, once encoded, is the label [i] of
    [pheno.index]; and that label is an accession of the genotype file. *)
Theorem Y_has_no_missing_value (csv : list (Z * pyfloat)) (geno : geno_file)
    (pY : prepared_Y) :
  prepare_Y (load_pheno csv) geno = Ok pY →
  Forall2 (λ row acn, ∃ key v,
             row = [v] ∧ isna v = false ∧ (key, v) ∈ csv ∧
             acn = encode_index key ∧ acn ∈ g_accessions geno)
          (pY_Y pY) (index (pY_pheno pY)).
Proof.
  intros (pheno1 & idx0 & acn_order & Hloc1 & _ & _ & _ & _ & Hloc2 & ->)%prepare_Y_Ok.
  destruct (loc_Ok_rows _ _ _ Hloc1) as [Hrows1 _].
  destruct (loc_Ok_rows _ _ _ Hloc2) as [Hrows2 _].
  unfold to_numpy, index. apply Forall2_fmap, Forall_Forall2_diag.
  eapply Forall_impl; [exact Hrows2|]. simpl. intros r [Hr _].
  rewrite Forall_forall in Hrows1. destruct (Hrows1 r Hr) as [Hload Hg].
  apply genotyped_elem in Hg as [Hg _].
  unfold load_pheno in Hload.
  apply list_elem_of_filter in Hload as [Hna Hcsv].
  apply list_elem_of_fmap in Hcsv as ([key v] & -> & Hkv).
  by exists key, v.
Qed.

Lemma Y_has_no_missing_value_witness :
  Forall2 (λ row acn, ∃ key v,
             row = [v] ∧ isna v = false ∧ (key, v) ∈ demo_csv ∧
             acn = encode_index key ∧ acn ∈ g_accessions demo_geno)
          [[Fin 0.25]; [Fin 7]; [Fin 1.5]] ["1"; "2"; "3"].
Proof.
  apply (Y_has_no_missing_value demo_csv demo_geno
           {| pY_pheno := [("1", Fin 0.25); ("2", Fin 7); ("3", Fin 1.5)];
              pY_acn_indices := [0; 1; 2]%nat;
              pY_Y := [[Fin 0.25]; [Fin 7]; [Fin 1.5]] |}).
  reflexivity.
Defined.

Lemma increasing_NoDup l : increasing l = true → NoDup l.
Proof.
  intros H. assert (StronglySorted lt l) as Hs.
  { apply Sorted_StronglySorted; [apply _|].
    induction l as [|i [|j l] IH]; [constructor|by repeat constructor|].
    simpl in H. apply andb_prop in H as [Hij H].
    constructor; [by apply IH|]. constructor. by apply Nat.ltb_lt. }
  clear H. induction Hs as [|i l _ IH Hlt]; constructor; [|done].
  intros Hi. rewrite Forall_forall in Hlt. specialize (Hlt i Hi). lia.
Qed.

(** X2: a genotyped accession that occurs twice in the phenotype index
    stops section 3a: the positions looked up for it coincide, and h5py
    refuses an index list that is not strictly increasing. *)
Theorem duplicate_genotyped_key_is_TypeError (pheno : DataFrame)
    (geno : geno_file) :
  ¬ NoDup (genotyped geno pheno) →
  prepare_Y pheno geno = Raise TypeError.
Proof.
  intros Hdup. unfold prepare_Y. fold (genotyped geno pheno).
  destruct (loc (genotyped geno pheno) pheno) as [pheno1|e] eqn:Hloc1.
  - simpl. destruct (loc_Ok_rows _ _ _ Hloc1) as [Hrows Hsub].
    assert (Forall (λ x, x ∈ g_accessions geno) (index pheno1)) as Hgen.
    { unfold index. apply Forall_fmap.
      eapply Forall_impl; [exact Hrows|]. simpl.
      by intros r [_ [? _]%genotyped_elem]. }
    rewrite (np_where_first_for _ _ Hgen). simpl.
    unfold h5_take.
    destruct (increasing _) eqn:Hinc; [|done].
    exfalso. apply Hdup.
    apply increasing_NoDup in Hinc. rewrite py_sort_Permutation in Hinc.
    apply NoDup_fmap_1 in Hinc. by eapply sublist_NoDup.
  - exfalso. clear Hdup. revert e Hloc1.
    assert (Forall (λ l, l ∈ index pheno) (genotyped geno pheno)) as Hsub.
    { apply Forall_forall. by intros x [_ ?]%genotyped_elem. }
    induction Hsub as [|l labels Hl _ IH]; intros e; simpl; [done|].
    apply list_elem_of_fmap in Hl as (r & -> & Hr).
    destruct (filter (λ r', r'.1 = r.1) pheno) as [|r0 rows0] eqn:Hf.
    + assert (r ∈ filter (λ r', r'.1 = r.1) pheno) as Hin
        by by apply list_elem_of_filter.
      rewrite Hf in Hin. by apply elem_of_nil in Hin.
    + destruct (loc labels pheno) as [rest|e'] eqn:Hrest; [done|].
      by eapply IH.
Qed.

Lemma duplicate_genotyped_key_is_TypeError_witness :
  prepare_Y [("1", Fin 1); ("2", Fin 2); ("1", Fin 3)] demo_geno
  = Raise TypeError.
Proof.
  apply (duplicate_genotyped_key_is_TypeError
           [("1", Fin 1); ("2", Fin 2); ("1", Fin 3)] demo_geno).
  intros H. vm_compute in H.
  apply NoDup_cons in H as [H _]. apply H. do 2 constructor.
Defined.

(** On a frame with unique keys [loc] returns exactly one row per label. *)
Lemma loc_unique_index (df : DataFrame) labels rows :
  NoDup (index df) → loc labels df = Ok rows → index rows = labels.
Proof.
  intros Hnd. revert rows.
  induction labels as [|l labels IH]; intros rows; simpl.
  - by intros [= <-].
  - destruct (filter (λ r, r.1 = l) df) as [|r0 rows0] eqn:Hf; [done|].
    assert (r0.1 = l ∧ r0 ∈ df) as [Hl Hr0].
    { apply (list_elem_of_filter (λ r, r.1 = l)). rewrite Hf. by left. }
    rewrite <- Hl, (unique_key_filter df r0 Hnd Hr0) in Hf.
    injection Hf as <-.
    destruct (loc labels df) as [rest|e]; [|done].
    intros [= <-]. simpl. rewrite Hl. f_equal. by apply IH.
Qed.

Lemma np_where_first_Ok a x i :
  np_where_first a x = Ok i → a !! i = Some x ∧ i = first_pos a x.
Proof.
  unfold np_where_first, first_pos.
  destruct (list_find _ a) as [[j y]|] eqn:Hfind; [|done].
  intros [= <-]. apply list_find_Some in Hfind as (Hj & -> & _). done.
Qed.

(** Whenever section 3a succeeds, [pheno] ends up with one row per entry of
    [acn_indices], carrying the accession at that position of the genotype
    file, and [acn_indices] is strictly increasing. *)
Lemma prepare_Y_Ok_index pheno geno pY :
  prepare_Y pheno geno = Ok pY →
  StronglySorted lt (pY_acn_indices pY) ∧
  np_take (g_accessions geno) (pY_acn_indices pY) = Ok (index (pY_pheno pY)) ∧
  py_for (np_where_first (g_accessions geno)) (index (pY_pheno pY))
    = Ok (pY_acn_indices pY).
Proof.
  intros (pheno1 & idx0 & acn_order & Hloc1 & Hfor & -> & Hinc & Hord & Hloc2 & _)%prepare_Y_Ok.
  pose proof (increasing_NoDup _ Hinc) as Hnd.
  split.
  { apply sorted_NoDup_lt; [apply py_sort_sorted|done]. }
  rewrite py_sort_Permutation in Hnd.
  assert (NoDup (index pheno1)) as Hnd1.
  { apply py_for_Ok in Hfor. apply NoDup_alt. intros n m x Hn Hm.
    destruct (Forall2_lookup_l _ _ _ _ _ Hfor Hn) as (i & Hi & Hxi).
    destruct (Forall2_lookup_l _ _ _ _ _ Hfor Hm) as (j & Hj & Hxj).
    assert (i = j) as <- by congruence.
    by eapply (proj1 (NoDup_alt idx0) Hnd). }
  rewrite (loc_unique_index pheno1 acn_order _ Hnd1 Hloc2).
  split; [done|].
  apply py_for_Ok, Forall2_same_length_lookup.
  apply np_take_Ok in Hord.
  split; [symmetry; by eapply Forall2_length|].
  intros n x i Hx Hi.
  pose proof (Forall2_lookup_lr _ _ _ _ _ _ Hord Hi Hx) as Hai.
  apply list_elem_of_lookup_2 in Hi. rewrite py_sort_Permutation in Hi.
  apply list_elem_of_lookup_1 in Hi as [m Hm].
  apply py_for_Ok in Hfor.
  destruct (Forall2_lookup_r _ _ _ _ _ Hfor Hm) as (y & _ & Hy).
  destruct (np_where_first_Ok _ _ _ Hy) as [Hay _]. congruence.
Qed.

(** What [prepare_K] returns, line by line of the cell. *)
Lemma prepare_K_Ok pheno kin pK :
  prepare_K pheno kin = Ok pK →
  ∃ idx0 rows,
    py_for (np_where_first (k_accessions kin)) (index pheno) = Ok idx0 ∧
    pK_acn_indices pK = py_sort idx0 ∧
    h5_take (k_kinship kin) (py_sort idx0) = Ok rows ∧
    py_for (λ row, np_take row (py_sort idx0)) rows = Ok (pK_K pK).
Proof.
  unfold prepare_K. intros H.
  destruct (py_for _ (index pheno)) as [idx0|e] eqn:Hfor; [|done].
  simpl in H.
  destruct (h5_take _ (py_sort idx0)) as [rows|e] eqn:Hrows; [|done].
  simpl in H.
  destruct (py_for _ rows) as [K|e] eqn:HK; [|done].
  simpl in H. injection H as <-. by exists idx0, rows.
Qed.

(** What [prepare] returns. *)
Lemma prepare_Ok csv geno kin cutoff p :
  prepare csv geno kin cutoff = Ok p →
  ∃ pY pG pK,
    prepare_Y (load_pheno csv) geno = Ok pY ∧
    prepare_G geno (pY_acn_indices pY) cutoff = Ok pG ∧
    prepare_K (pY_pheno pY) kin = Ok pK ∧
    h5_take (g_accessions geno) (pY_acn_indices pY) = Ok (p_G_accessions p) ∧
    h5_take (k_accessions kin) (pK_acn_indices pK) = Ok (p_K_accessions p) ∧
    p_Y p = pY_Y pY ∧ p_G p = pG_G pG ∧ p_K p = pK_K pK ∧
    p_SNP_indices p = pG_SNP_indices pG ∧ p_SNPs_MAF p = pG_SNPs_MAF pG ∧
    p_Y_accessions p = index (pY_pheno pY).
Proof.
  unfold prepare. intros H.
  destruct (prepare_Y _ geno) as [pY|e] eqn:HpY; [|done]. simpl in H.
  destruct (prepare_G geno _ cutoff) as [pG|e] eqn:HpG; [|done]. simpl in H.
  destruct (h5_take (g_accessions geno) _) as [G_acn|e] eqn:HGa; [|done].
  simpl in H.
  destruct (prepare_K _ kin) as [pK|e] eqn:HpK; [|done]. simpl in H.
  destruct (h5_take (k_accessions kin) _) as [K_acn|e] eqn:HKa; [|done].
  simpl in H. injection H as <-. by exists pY, pG, pK.
Qed.

(** ** Alignment, shapes and the manual checks *)

(** X3: whenever the preparation succeeds, the rows of [Y] and the rows of
    [G] belong to the same accessions in the same order. *)
Theorem Y_and_G_rows_same_accessions (csv : list (Z * pyfloat))
    (geno : geno_file) (kin : kin_file) (maf_cutoff : Q) (p : prepared) :
  prepare csv geno kin maf_cutoff = Ok p →
  p_Y_accessions p = p_G_accessions p.
Proof.
  intros (pY & pG & pK & HpY & _ & _ & HGa & _ & _ & _ & _ & _ & _ & ->)%prepare_Ok.
  destruct (prepare_Y_Ok_index _ _ _ HpY) as (Hs & Hord & _).
  unfold h5_take in HGa. rewrite (increasing_sorted _ Hs) in HGa. congruence.
Qed.

Lemma Y_and_G_rows_same_accessions_witness :
  ∃ p, prepare demo_csv demo_geno demo_kin 0.1 = Ok p ∧
       p_Y_accessions p = p_G_accessions p.
Proof.
  eexists. split; [reflexivity|].
  apply (Y_and_G_rows_same_accessions demo_csv demo_geno demo_kin 0.1).
  reflexivity.
Defined.

(** X4: when the kinship file lists its accessions exactly as the genotype
    file does, the rows and columns of [K] belong to the same accessions,
    in the same order, as the rows of [Y]. *)
Theorem K_aligned_when_accession_vectors_agree (csv : list (Z * pyfloat))
    (geno : geno_file) (kin : kin_file) (maf_cutoff : Q) (p : prepared) :
  k_accessions kin = g_accessions geno →
  prepare csv geno kin maf_cutoff = Ok p →
  p_K_accessions p = p_Y_accessions p.
Proof.
  intros Hsame (pY & pG & pK & HpY & _ & HpK & _ & HKa & _ & _ & _ & _ & _ & ->)%prepare_Ok.
  destruct (prepare_Y_Ok_index _ _ _ HpY) as (Hs & Hord & Hfor).
  destruct (prepare_K_Ok _ _ _ HpK) as (idx0 & rows & Hfor' & Hidx & _).
  rewrite Hsame in Hfor', HKa.
  assert (idx0 = pY_acn_indices pY) as -> by congruence.
  rewrite (py_sort_sorted_id _ Hs) in Hidx. rewrite Hidx in HKa.
  unfold h5_take in HKa. rewrite (increasing_sorted _ Hs) in HKa. congruence.
Qed.

Lemma K_aligned_when_accession_vectors_agree_witness :
  ∃ p, prepare swapped_csv swapped_geno same_order_kin 0.1 = Ok p ∧
       p_K_accessions p = p_Y_accessions p.
Proof.
  eexists. split; [reflexivity|].
  apply (K_aligned_when_accession_vectors_agree
           swapped_csv swapped_geno same_order_kin 0.1).
  - reflexivity.
  - reflexivity.
Defined.

Lemma py_sort_length l : length (py_sort l) = length l.
Proof. apply Permutation_length, py_sort_Permutation. Qed.

Lemma h5_take_length {A : Type} (d : list A) idx k :
  h5_take d idx = Ok k → length k = length idx.
Proof.
  unfold h5_take. destruct (increasing idx); [|done]. apply np_take_length.
Qed.

(** ** Section 3c: missing accessions *)

Lemma np_where_first_missing a x :
  x ∉ a → np_where_first a x = Raise IndexError.
Proof.
  intros Hx. unfold np_where_first.
  destruct (list_find _ a) as [[i y]|] eqn:Hfind; [|done].
  apply list_find_Some in Hfind as (Hi & -> & _).
  exfalso. apply Hx. by eapply list_elem_of_lookup_2.
Qed.

Lemma np_where_first_for_missing a labels :
  ¬ Forall (λ x, x ∈ a) labels →
  py_for (np_where_first a) labels = Raise IndexError.
Proof.
  induction labels as [|x labels IH]; intros Hn; simpl.
  - exfalso. apply Hn. constructor.
  - destruct (decide (x ∈ a)) as [Hx|Hx].
    + destruct (np_where_first_elem a x Hx) as [-> _].
      rewrite IH; [done|]. intros Hrest. apply Hn. by constructor.
    + by rewrite np_where_first_missing.
Qed.

(** X6: when an accession of [pheno] does not occur in the kinship file,
    section 3c stops with the IndexError of [np.where(...)[0][0]]. *)
Theorem missing_kinship_accession_is_IndexError (pheno : DataFrame)
    (kin : kin_file) :
  ¬ Forall (λ acn, acn ∈ k_accessions kin) (index pheno) →
  prepare_K pheno kin = Raise IndexError.
Proof.
  intros H. unfold prepare_K. by rewrite np_where_first_for_missing.
Qed.

Lemma missing_kinship_accession_is_IndexError_witness :
  prepare_K [("1", Fin 0.5); ("5", Fin 1.5)] demo_kin = Raise IndexError.
Proof.
  apply (missing_kinship_accession_is_IndexError
           [("1", Fin 0.5); ("5", Fin 1.5)] demo_kin).
  intros H. apply Forall_cons in H as [_ H]. apply Forall_cons in H as [H _].
  simpl in H. by repeat (apply elem_of_cons in H as [H|H]; [done|]);
    apply elem_of_nil in H.
Defined.

(** ** The accessions that reach the scan *)

Lemma prepare_Y_accessions (pheno : DataFrame) (geno : geno_file)
    (pY : prepared_Y) :
  NoDup (index pheno) →
  prepare_Y pheno geno = Ok pY →
  NoDup (index (pY_pheno pY)) ∧
  ∀ acn, acn ∈ index (pY_pheno pY) ↔
         acn ∈ index pheno ∧ acn ∈ g_accessions geno.
Proof.
  intros Hnd HpY.
  destruct (prepare_Y_unique_keys pheno geno Hnd)
    as (pY' & HpY' & Hidx & Hs & _).
  assert (pY' = pY) as -> by congruence.
  destruct (prepare_Y_Ok_index _ _ _ HpY) as (_ & Hord & Hfor).
  apply np_take_Ok in Hord. apply py_for_Ok in Hfor.
  assert (NoDup (pY_acn_indices pY)) as Hndi.
  { apply increasing_NoDup. by apply increasing_sorted. }
  assert (Forall (λ x, x ∈ g_accessions geno) (genotyped geno pheno)) as Hgen.
  { apply Forall_forall. by intros x [? _]%genotyped_elem. }
  split.
  - apply NoDup_alt. intros n m x Hn Hm.
    destruct (Forall2_lookup_l _ _ _ _ _ Hfor Hn) as (i & Hi & Hxi).
    destruct (Forall2_lookup_l _ _ _ _ _ Hfor Hm) as (j & Hj & Hxj).
    assert (i = j) as <- by congruence.
    by eapply (proj1 (NoDup_alt _) Hndi).
  - intros acn.
    assert (acn ∈ genotyped geno pheno ↔
            acn ∈ index pheno ∧ acn ∈ g_accessions geno) as Hgi
      by (rewrite genotyped_elem; tauto).
    rewrite <- Hgi. clear Hgi. split.
    + intros [n Hn]%list_elem_of_lookup_1.
      destruct (Forall2_lookup_r _ _ _ _ _ Hord Hn) as (i & Hi & Hai).
      apply list_elem_of_lookup_2 in Hi. rewrite Hidx in Hi.
      apply positions_in_range in Hi as (y & Hy & Hay & _); [|done].
      congruence.
    + intros Hacn.
      assert (first_pos (g_accessions geno) acn ∈ pY_acn_indices pY) as Hi.
      { rewrite Hidx, py_sort_Permutation. apply list_elem_of_fmap.
        by exists acn. }
      apply list_elem_of_lookup_1 in Hi as [n Hn].
      destruct (Forall2_lookup_l _ _ _ _ _ Hord Hn) as (y & Hy & Hay).
      rewrite Forall_forall in Hgen.
      destruct (np_where_first_elem _ _ (Hgen acn Hacn)) as [_ Hpos].
      assert (y = acn) as -> by congruence.
      by eapply list_elem_of_lookup_2.
Qed.

(** X7: with unique keys in the phenotype frame, the accessions of [Y] are
    exactly the accessions that are both phenotyped and genotyped, each
    once. *)
Theorem Y_accessions_are_the_intersection (pheno : DataFrame)
    (geno : geno_file) (pY : prepared_Y) :
  NoDup (index pheno) →
  prepare_Y pheno geno = Ok pY →
  NoDup (index (pY_pheno pY)) ∧
  ∀ acn, acn ∈ index (pY_pheno pY) ↔
         acn ∈ index pheno ∧ acn ∈ g_accessions geno.
Proof. apply prepare_Y_accessions. Qed.

Lemma Y_accessions_are_the_intersection_witness :
  ∃ pY, prepare_Y (load_pheno demo_csv) demo_geno = Ok pY ∧
        NoDup (index (pY_pheno pY)) ∧
        ∀ acn, acn ∈ index (pY_pheno pY) ↔
               acn ∈ index (load_pheno demo_csv) ∧
               acn ∈ g_accessions demo_geno.
Proof.
  eexists. split; [reflexivity|].
  apply (Y_accessions_are_the_intersection (load_pheno demo_csv) demo_geno).
  - refine (bool_decide_unpack _ _). vm_compute. exact I.
  - reflexivity.
Defined.

(** ** Contents of [G] and [K] *)

Lemma omap_column_lookup {A : Type} (M : list (list A)) j : ∀ i,
  Forall (λ row, j < length row)%nat M →
  omap (λ row : list A, row !! j) M !! i = entry M i j.
Proof.
  unfold entry. induction M as [|row M IH]; intros i Hreg; [done|].
  apply Forall_cons in Hreg as [Hrow Hreg].
  destruct (lookup_lt_is_Some_2 row j Hrow) as [x Hx].
  csimpl. rewrite Hx. destruct i as [|i]; simpl; [done|]. by apply IH.
Qed.

Lemma omap_column_length {A : Type} (M : list (list A)) j :
  Forall (λ row, j < length row)%nat M →
  length (omap (λ row : list A, row !! j) M) = length M.
Proof.
  induction 1 as [|row M Hrow _ IH]; [done|].
  destruct (lookup_lt_is_Some_2 row j Hrow) as [x Hx].
  csimpl. rewrite Hx. simpl. by rewrite IH.
Qed.

(** The transpose of a matrix with [ncols] columns holds entry [(i, j)] at
    [(j, i)], and has [ncols] rows as long as the matrix has rows. *)
Lemma np_transpose_entry {A : Type} ncols (M : list (list A)) i j :
  Forall (λ row, length row = ncols) M →
  entry (np_transpose ncols M) j i = entry M i j.
Proof.
  intros Hreg. unfold np_transpose, entry at 1.
  rewrite list_lookup_fmap.
  destruct (decide (j < ncols)%nat) as [Hj|Hj].
  - rewrite lookup_seq_lt by done. simpl. apply omap_column_lookup.
    eapply Forall_impl; [exact Hreg|]. simpl. lia.
  - rewrite lookup_seq_ge by lia. simpl. unfold entry.
    destruct (M !! i) as [row|] eqn:Hrow; [|done]. simpl.
    symmetry. apply lookup_ge_None.
    rewrite Forall_forall in Hreg.
    rewrite (Hreg row) by by eapply list_elem_of_lookup_2. lia.
Qed.

Lemma np_transpose_shape {A : Type} ncols (M : list (list A)) :
  Forall (λ row, length row = ncols) M →
  length (np_transpose ncols M) = ncols ∧
  Forall (λ col, length col = length M) (np_transpose ncols M).
Proof.
  intros Hreg. unfold np_transpose. split.
  - by rewrite length_fmap, length_seq.
  - apply Forall_fmap, Forall_forall. intros j Hj%elem_of_seq. simpl.
    apply omap_column_length.
    eapply Forall_impl; [exact Hreg|]. simpl. lia.
Qed.

Lemma np_take_entry {A : Type} (M : list (list A)) idx M' i s j :
  np_take M idx = Ok M' → idx !! i = Some s → entry M' i j = entry M s j.
Proof.
  intros H%np_take_Ok Hi. unfold entry.
  destruct (Forall2_lookup_l _ _ _ _ _ H Hi) as (row & -> & ->). done.
Qed.

Lemma take_cols_entry {A : Type} (M : list (list A)) idx M' i j a :
  py_for (λ row, np_take row idx) M = Ok M' →
  idx !! j = Some a →
  entry M' i j = entry M i a ∧ (is_Some (M !! i) → is_Some (entry M' i j)).
Proof.
  intros H%py_for_Ok Hj. unfold entry.
  destruct (M !! i) as [row|] eqn:Hrow.
  - destruct (Forall2_lookup_l _ _ _ _ _ H Hrow) as (row' & -> & Hrow').
    apply np_take_Ok in Hrow'.
    destruct (Forall2_lookup_l _ _ _ _ _ Hrow' Hj) as (x & Hx & Hrx).
    simpl. rewrite Hx, Hrx. split; [done|]. by eexists.
  - assert (M' !! i = None) as ->.
    { apply lookup_ge_None. apply lookup_ge_None in Hrow.
      by rewrite <- (Forall2_length _ _ _ H). }
    split; [done|]. by intros [? ?].
Qed.

(** X8: [G] has one row per selected accession and one column per retained
    SNP, and its entry for accession [j] and SNP [i] is the call of the
    file at SNP [SNP_indices[i]] and accession [acn_indices[j]]. *)
Theorem G_is_the_selected_calls_transposed (geno : geno_file)
    (acn_indices : list nat) (maf_cutoff : Q) (pG : prepared_G) :
  prepare_G geno acn_indices maf_cutoff = Ok pG →
  length (pG_G pG) = length acn_indices ∧
  Forall (λ row, length row = length (pG_SNP_indices pG)) (pG_G pG) ∧
  ∀ j i a s,
    acn_indices !! j = Some a →
    pG_SNP_indices pG !! i = Some s →
    is_Some (entry (pG_G pG) j i) ∧
    entry (pG_G pG) j i = entry (g_snps geno) s a.
Proof.
  intros HpG.
  destruct (prepare_G_Ok _ _ _ _ HpG) as (G0 & HG0 & _ & _ & _ & Hrows & ->).
  pose proof (h5_take_cols_row_length _ _ _ HG0) as Hreg0.
  assert (Forall (λ row, length row = length acn_indices) (pG_rows pG)) as Hreg.
  { apply np_take_Ok in Hrows. apply Forall_lookup. intros n row Hn.
    destruct (Forall2_lookup_r _ _ _ _ _ Hrows Hn) as (s & _ & Hs).
    rewrite Forall_forall in Hreg0. by eapply Hreg0, list_elem_of_lookup_2. }
  destruct (np_transpose_shape _ _ Hreg) as [Hlen Hcols].
  rewrite (np_take_length _ _ _ Hrows) in Hcols.
  split_and!; [done|done|].
  intros j i a s Hj Hi.
  rewrite (np_transpose_entry _ _ i j Hreg).
  rewrite (np_take_entry _ _ _ _ _ j Hrows Hi).
  unfold h5_take_cols in HG0. destruct (increasing acn_indices); [|done].
  destruct (take_cols_entry _ _ _ s j a HG0 Hj) as [Heq Hsome].
  split; [|done]. apply Hsome. apply lookup_lt_is_Some_2.
  rewrite (Forall2_length _ _ _ (proj1 (py_for_Ok _ _ _) HG0)).
  apply np_take_Ok in Hrows.
  destruct (Forall2_lookup_l _ _ _ _ _ Hrows Hi) as (row & _ & Hrow).
  by eapply lookup_lt_Some.
Qed.

Lemma G_is_the_selected_calls_transposed_witness :
  length (pG_G demo_pG) = length demo_acn_indices ∧
  Forall (λ row, length row = length (pG_SNP_indices demo_pG)) (pG_G demo_pG) ∧
  ∀ j i a s,
    demo_acn_indices !! j = Some a →
    pG_SNP_indices demo_pG !! i = Some s →
    is_Some (entry (pG_G demo_pG) j i) ∧
    entry (pG_G demo_pG) j i = entry (g_snps demo_geno) s a.
Proof.
  apply (G_is_the_selected_calls_transposed demo_geno demo_acn_indices 0.1).
  reflexivity.
Defined.

(** The shape and the entries of [K]. *)
Lemma prepare_K_entries (pheno : DataFrame) (kin : kin_file) pK :
  prepare_K pheno kin = Ok pK →
  length (pK_acn_indices pK) = length (index pheno) ∧
  length (pK_K pK) = length (pK_acn_indices pK) ∧
  Forall (λ row, length row = length (pK_acn_indices pK)) (pK_K pK) ∧
  ∀ i j a b,
    pK_acn_indices pK !! i = Some a →
    pK_acn_indices pK !! j = Some b →
    is_Some (entry (pK_K pK) i j) ∧
    entry (pK_K pK) i j = entry (k_kinship kin) a b.
Proof.
  intros (idx0 & rows & Hfor & -> & Hrows & HK)%prepare_K_Ok.
  pose proof (h5_take_length _ _ _ Hrows) as Hlr.
  pose proof (py_for_length _ _ _ HK) as HlK.
  split_and!.
  - rewrite py_sort_length. by eapply py_for_length.
  - congruence.
  - apply py_for_Ok in HK. apply Forall_lookup. intros n row Hn.
    destruct (Forall2_lookup_r _ _ _ _ _ HK Hn) as (row0 & _ & Hrow).
    by eapply np_take_length.
  - intros i j a b Hi Hj.
    unfold h5_take in Hrows. destruct (increasing _); [|done].
    destruct (take_cols_entry _ _ _ i j b HK Hj) as [Heq Hsome].
    rewrite Heq, (np_take_entry _ _ _ _ _ b Hrows Hi). split; [|done].
    rewrite <- (np_take_entry _ _ _ _ _ b Hrows Hi), <- Heq.
    apply Hsome, lookup_lt_is_Some_2. rewrite Hlr.
    by eapply lookup_lt_Some.
Qed.

(** X9: [K] is square, with one row and one column per accession of
    [pheno]; its entry [(i, j)] is the kinship of the file at the positions
    of accessions [i] and [j]. *)
Theorem K_is_the_selected_kinship (pheno : DataFrame) (kin : kin_file)
    (pK : prepared_K) :
  prepare_K pheno kin = Ok pK →
  length (pK_K pK) = length (index pheno) ∧
  Forall (λ row, length row = length (index pheno)) (pK_K pK) ∧
  ∀ i j a b,
    pK_acn_indices pK !! i = Some a →
    pK_acn_indices pK !! j = Some b →
    is_Some (entry (pK_K pK) i j) ∧
    entry (pK_K pK) i j = entry (k_kinship kin) a b.
Proof.
  intros (Hli & HlK & Hrows & Hentries)%prepare_K_entries.
  rewrite <- Hli. by split_and!; [congruence|..].
Qed.

Lemma K_is_the_selected_kinship_witness :
  ∃ pK, prepare_K [("1", Fin 0.25); ("2", Fin 7); ("3", Fin 1.5)] demo_kin
        = Ok pK ∧
  length (pK_K pK) = length (index [("1", Fin 0.25); ("2", Fin 7); ("3", Fin 1.5)]) ∧
  Forall (λ row, length row
                 = length (index [("1", Fin 0.25); ("2", Fin 7); ("3", Fin 1.5)]))
         (pK_K pK) ∧
  ∀ i j a b,
    pK_acn_indices pK !! i = Some a →
    pK_acn_indices pK !! j = Some b →
    is_Some (entry (pK_K pK) i j) ∧
    entry (pK_K pK) i j = entry (k_kinship demo_kin) a b.
Proof.
  eexists. split; [reflexivity|].
  apply (K_is_the_selected_kinship
           [("1", Fin 0.25); ("2", Fin 7); ("3", Fin 1.5)] demo_kin).
  reflexivity.
Defined.

(** X10: a symmetric kinship matrix gives a symmetric [K]. *)
Theorem K_of_symmetric_kinship_is_symmetric (pheno : DataFrame)
    (kin : kin_file) (pK : prepared_K) :
  (∀ a b, entry (k_kinship kin) a b = entry (k_kinship kin) b a) →
  prepare_K pheno kin = Ok pK →
  ∀ i j, entry (pK_K pK) i j = entry (pK_K pK) j i.
Proof.
  intros Hsym (_ & HlK & Hrows & Hentries)%prepare_K_entries.
  assert (∀ i j, (length (pK_acn_indices pK) ≤ i)%nat →
                 entry (pK_K pK) i j = None ∧ entry (pK_K pK) j i = None)
    as Hout.
  { intros i j Hi. unfold entry. split.
    - rewrite (proj2 (lookup_ge_None (pK_K pK) i)) by lia. done.
    - destruct (pK_K pK !! j) as [row|] eqn:Hrow; [|done]. simpl.
      apply lookup_ge_None. rewrite Forall_forall in Hrows.
      rewrite (Hrows row) by by eapply list_elem_of_lookup_2. done. }
  intros i j.
  destruct (decide (i < length (pK_acn_indices pK))%nat) as [Hi|Hi];
    [|destruct (Hout i j) as [-> ->]; [lia|done]].
  destruct (decide (j < length (pK_acn_indices pK))%nat) as [Hj|Hj];
    [|destruct (Hout j i) as [-> ->]; [lia|done]].
  destruct (lookup_lt_is_Some_2 _ _ Hi) as [a Ha].
  destruct (lookup_lt_is_Some_2 _ _ Hj) as [b Hb].
  destruct (Hentries i j a b Ha Hb) as [_ ->].
  destruct (Hentries j i b a Hb Ha) as [_ ->]. apply Hsym.
Qed.

Lemma K_of_symmetric_kinship_is_symmetric_witness :
  ∃ pK, prepare_K [("1", Fin 0.5); ("2", Fin 1.5)] symmetric_kin = Ok pK ∧
        ∀ i j, entry (pK_K pK) i j = entry (pK_K pK) j i.
Proof.
  eexists. split; [reflexivity|].
  apply (K_of_symmetric_kinship_is_symmetric
           [("1", Fin 0.5); ("2", Fin 1.5)] symmetric_kin).
  - intros [|[|[|a]]] [|[|[|b]]]; reflexivity.
  - reflexivity.
Defined.

(** ** The prepared variables under the manual checks *)

(** The shape of [G]: one row per selected accession, one column per
    retained SNP. *)
Lemma prepare_G_shape geno acn_indices cutoff pG :
  prepare_G geno acn_indices cutoff = Ok pG →
  length (pG_G pG) = length acn_indices ∧
  Forall (λ row, length row = length (pG_SNP_indices pG)) (pG_G pG).
Proof.
  intros HpG.
  destruct (prepare_G_Ok _ _ _ _ HpG) as (G0 & HG0 & _ & _ & _ & Hrows & ->).
  pose proof (h5_take_cols_row_length _ _ _ HG0) as Hreg0.
  assert (Forall (λ row, length row = length acn_indices) (pG_rows pG)) as Hreg.
  { apply np_take_Ok in Hrows. apply Forall_lookup. intros n row Hn.
    destruct (Forall2_lookup_r _ _ _ _ _ Hrows Hn) as (s & _ & Hs).
    rewrite Forall_forall in Hreg0. by eapply Hreg0, list_elem_of_lookup_2. }
  destruct (np_transpose_shape _ _ Hreg) as [Hlen Hcols].
  by rewrite (np_take_length _ _ _ Hrows) in Hcols.
Qed.

(** All rows of a matrix with at least one row have one length only. *)
Lemma row_length_unique {A : Type} (M : list (list A)) c d :
  M ≠ [] →
  Forall (λ row, length row = c) M → Forall (λ row, length row = d) M →
  c = d.
Proof.
  destruct M as [|row M]; [done|]. intros _ Hc Hd.
  apply Forall_cons in Hc as [Hc _]. apply Forall_cons in Hd as [Hd _].
  congruence.
Qed.

(** X5: whenever the preparation succeeds and keeps at least one accession,
    the three check cells pass on variables that hold the prepared [Y], [G]
    and [K] as two-dimensional arrays: the rows of [Y] have one entry each,
    [G] has as many rows as [Y], and [K] has as many rows as [Y] and rows
    of that length.  The cells raise nothing, print their five lines with
    the number of accessions and of retained SNPs, and leave the variables
    as they are. *)
Theorem prepared_inputs_pass_checks (csv : list (Z * pyfloat))
    (geno : geno_file) (kin : kin_file) (maf_cutoff : Q) (p : prepared)
    (k : kernel) :
  prepare csv geno kin maf_cutoff = Ok p →
  p_Y p ≠ [] →
  array_with_rows (var_Y k) (p_Y p) →
  array_with_rows (var_G k) (p_G p) →
  array_with_rows (var_K k) (p_K p) →
  check_inputs k =
    Ok (k,
        ["Everything is fine";
         "Number of Accessions is " +:+ pretty (length (p_Y p));
         "Everything is fine";
         "Number of SNPs is " +:+ pretty (length (p_SNP_indices p));
         "Everything is fine"]).
Proof.
  intros (pY & pG & pK & HpY & HpG & HpK & _ & _ & HY & HG & HK & HS & _)%prepare_Ok
         Hne (cY & HvY & HcY) (cG & HvG & HcG) (cK & HvK & HcK).
  destruct (prepare_Y_Ok _ _ _ HpY) as (_ & _ & _ & _ & _ & _ & _ & _ & _ & HYnp).
  destruct (prepare_Y_Ok_index _ _ _ HpY) as (_ & Hord & _).
  destruct (prepare_G_shape _ _ _ _ HpG) as [HlG HrG].
  destruct (prepare_K_entries _ _ _ HpK) as (Hli & HlK & HrK & _).
  assert (length (p_Y p) = length (index (pY_pheno pY))) as HlY.
  { rewrite HY, HYnp. unfold to_numpy, index. by rewrite !length_fmap. }
  assert (length (pY_acn_indices pY) = length (p_Y p)) as Hidx.
  { rewrite HlY. symmetry. by eapply np_take_length. }
  assert (Forall (λ row, length row = 1%nat) (p_Y p)) as HrY.
  { rewrite HY, HYnp. unfold to_numpy. by apply Forall_fmap, Forall_true. }
  rewrite <- HG, Hidx in HlG. rewrite <- HG, <- HS in HrG.
  rewrite <- HK, Hli, <- HlY in HlK. rewrite <- HK, Hli, <- HlY in HrK.
  assert (p_G p ≠ []) as HneG.
  { intros HG0. apply Hne, length_zero_iff_nil. by rewrite <- HlG, HG0. }
  assert (p_K p ≠ []) as HneK.
  { intros HK0. apply Hne, length_zero_iff_nil. by rewrite <- HlK, HK0. }
  pose proof (row_length_unique (p_Y p) _ _ Hne HcY HrY) as ->.
  pose proof (row_length_unique (p_G p) _ _ HneG HcG HrG) as ->.
  pose proof (row_length_unique (p_K p) _ _ HneK HcK HrK) as ->.
  destruct k as [vY vG vK]. simpl in *. subst vY vG vK.
  unfold check_inputs, check_Y, check_G, check_K. simpl.
  rewrite HlG, HlK, !Nat.eqb_refl. simpl. by rewrite !Nat.eqb_refl.
Qed.

Lemma prepared_inputs_pass_checks_witness :
  ∃ p, prepare demo_csv demo_geno demo_kin 0.1 = Ok p ∧
    check_inputs {| var_Y := NdArray [3; 1]%nat (p_Y p);
                    var_G := NdArray [3; 2]%nat (p_G p);
                    var_K := NdArray [3; 3]%nat (p_K p) |} =
    Ok ({| var_Y := NdArray [3; 1]%nat (p_Y p);
           var_G := NdArray [3; 2]%nat (p_G p);
           var_K := NdArray [3; 3]%nat (p_K p) |},
        ["Everything is fine";
         "Number of Accessions is " +:+ pretty (length (p_Y p));
         "Everything is fine";
         "Number of SNPs is " +:+ pretty (length (p_SNP_indices p));
         "Everything is fine"]).
Proof.
  eexists. split; [reflexivity|].
  apply (prepared_inputs_pass_checks demo_csv demo_geno demo_kin 0.1).
  - reflexivity.
  - discriminate.
  - exists 1%nat. split; [reflexivity|].
    repeat (apply List.Forall_cons; [reflexivity|]). apply List.Forall_nil.
  - exists 2%nat. split; [reflexivity|].
    repeat (apply List.Forall_cons; [reflexivity|]). apply List.Forall_nil.
  - exists 3%nat. split; [reflexivity|].
    repeat (apply List.Forall_cons; [reflexivity|]). apply List.Forall_nil.
Defined.

(** ** The preparation on well-formed files *)

Lemma py_for_total {A B : Type} (f : A → py B) l :
  Forall (λ x, ∃ y, f x = Ok y) l → ∃ k, py_for f l = Ok k.
Proof.
  induction 1 as [|x l [y Hy] _ [k Hk]]; [by exists []|].
  exists (y :: k). simpl. by rewrite Hy, Hk.
Qed.

Lemma h5_take_total {A : Type} (d : list A) idx :
  StronglySorted lt idx → Forall (λ i, i < length d)%nat idx →
  ∃ k, h5_take d idx = Ok k.
Proof.
  intros Hs Hb. unfold h5_take. rewrite (increasing_sorted _ Hs).
  by apply np_take_total.
Qed.

Lemma take_cols_total {A : Type} (M : list (list A)) idx n :
  Forall (λ row, length row = n) M → Forall (λ i, i < n)%nat idx →
  ∃ M', py_for (λ row, np_take row idx) M = Ok M'.
Proof.
  intros Hreg Hb. apply py_for_total.
  eapply Forall_impl; [exact Hreg|]. simpl. intros row <-.
  by apply np_take_total.
Qed.

Lemma prepare_K_total (pheno : DataFrame) (kin : kin_file) :
  kin_well_formed kin →
  NoDup (index pheno) →
  Forall (λ acn, acn ∈ k_accessions kin) (index pheno) →
  ∃ pK, prepare_K pheno kin = Ok pK ∧
        ∃ K_acn, h5_take (k_accessions kin) (pK_acn_indices pK) = Ok K_acn.
Proof.
  intros [Hlen Hreg] Hnd Hin. unfold prepare_K.
  rewrite (np_where_first_for _ _ Hin). simpl.
  pose proof (py_sort_increasing _ (first_pos_NoDup _ _ Hin Hnd)) as Hs.
  set (idx := py_sort _) in *.
  assert (Forall (λ i, i < length (k_accessions kin))%nat idx) as Hb.
  { apply Forall_forall. intros i (x & _ & Hx & _)%positions_in_range; [|done].
    by eapply lookup_lt_Some. }
  destruct (h5_take_total (k_kinship kin) idx Hs) as [rows Hrows];
    [by rewrite Hlen|].
  rewrite Hrows. simpl.
  destruct (take_cols_total rows idx (length (k_accessions kin))) as [K HK];
    [|done|].
  { unfold h5_take in Hrows. destruct (increasing idx); [|done].
    apply np_take_Ok in Hrows. apply Forall_lookup. intros n row Hn.
    destruct (Forall2_lookup_r _ _ _ _ _ Hrows Hn) as (i & _ & Hi).
    rewrite Forall_forall in Hreg. by eapply Hreg, list_elem_of_lookup_2. }
  rewrite HK. simpl. eexists. split; [done|]. simpl.
  by apply h5_take_total.
Qed.

(** X11: with unique keys in the phenotype table, a well-formed genotype
    file, a well-formed kinship file and every phenotyped and genotyped
    accession present in the kinship file, sections 2a to 3c run through
    without an exception. *)
Theorem preparation_succeeds_on_well_formed_files (csv : list (Z * pyfloat))
    (geno : geno_file) (kin : kin_file) (maf_cutoff : Q) :
  NoDup (csv.*1) →
  geno_well_formed geno →
  kin_well_formed kin →
  Forall (λ acn, acn ∈ k_accessions kin) (genotyped geno (load_pheno csv)) →
  ∃ p, prepare csv geno kin maf_cutoff = Ok p.
Proof.
  intros Hnd [Hreg _] Hkin Hcov.
  pose proof (load_pheno_NoDup csv Hnd) as Hnd1.
  destruct (prepare_Y_unique_keys (load_pheno csv) geno Hnd1)
    as (pY & HpY & _ & Hs & Hh5 & _).
  destruct (prepare_Y_accessions _ _ _ Hnd1 HpY) as [Hnd2 Hacc].
  assert (Forall (λ i, i < length (g_accessions geno))%nat (pY_acn_indices pY))
    as Hb.
  { destruct (prepare_Y_Ok_index _ _ _ HpY) as (_ & Hord & _).
    apply np_take_Ok in Hord. apply Forall_lookup. intros n i Hi.
    destruct (Forall2_lookup_l _ _ _ _ _ Hord Hi) as (x & _ & Hx).
    by eapply lookup_lt_Some. }
  destruct (prepare_G_total geno (pY_acn_indices pY) maf_cutoff) as [pG HpG].
  { unfold h5_take_cols. rewrite (increasing_sorted _ Hs).
    by eapply take_cols_total. }
  destruct (prepare_K_total (pY_pheno pY) kin Hkin Hnd2)
    as (pK & HpK & K_acn & HKa).
  { apply Forall_forall. intros acn Hacn%Hacc.
    rewrite Forall_forall in Hcov. apply Hcov, genotyped_elem. tauto. }
  unfold prepare. rewrite HpY. simpl. rewrite HpG. simpl.
  rewrite Hh5. simpl. rewrite HpK. simpl. rewrite HKa. simpl. by eexists.
Qed.

Lemma preparation_succeeds_on_well_formed_files_witness :
  ∃ p, prepare demo_csv demo_geno demo_kin 0.1 = Ok p.
Proof.
  apply (preparation_succeeds_on_well_formed_files
           demo_csv demo_geno demo_kin 0.1).
  - refine (bool_decide_unpack _ _). vm_compute. exact I.
  - split; [|reflexivity].
    repeat (apply List.Forall_cons; [reflexivity|]). apply List.Forall_nil.
  - split; [reflexivity|].
    repeat (apply List.Forall_cons; [reflexivity|]). apply List.Forall_nil.
  - refine (bool_decide_unpack _ _). vm_compute. exact I.
Defined.

(** ** The result cells beyond the precondition on the scan *)

Lemma py_zip5_length_min cs ps pvs ms es :
  length (py_zip5 cs ps pvs ms es) =
  (length cs `min` (length ps `min` (length pvs `min`
     (length ms `min` length es))))%nat.
Proof.
  revert ps pvs ms es. induction cs as [|c cs IH];
    intros [|p ps] [|pv pvs] [|m ms] [|e es]; simpl; try lia.
  rewrite IH. lia.
Qed.

(** X12: a result table has as many data lines as the shortest of
    [SNP_indices], [SNPs_MAF], the p-values and the candidate effect
    sizes: [zip] silently drops what exceeds the shortest list. *)
Theorem table_is_cut_to_the_shortest_column (geno : geno_file)
    (SNP_indices : list nat) (SNPs_MAF : list pyfloat) (r : scan_result)
    (csv : list (list cell)) :
  save_results geno SNP_indices SNPs_MAF r = Ok csv →
  length (data_lines csv) =
  (length SNP_indices `min` (length (pv20 r) `min`
     (length SNPs_MAF `min` length (candidate_effsizes r))))%nat.
Proof.
  intros (chrs & poss & Hchrs & Hposs & ->)%save_results_Ok.
  simpl. rewrite length_fmap, py_zip5_length_min.
  rewrite (chromosomes_of_length _ _ _ Hchrs), (np_take_length _ _ _ Hposs).
  lia.
Qed.

Lemma table_is_cut_to_the_shortest_column_witness :
  length (data_lines demo_table) =
  (length [0; 2]%nat `min` (length (pv20 demo_scan) `min`
     (length [Fin (1 # 3); Fin (1 # 3)] `min`
      length (candidate_effsizes demo_scan))))%nat.
Proof.
  apply (table_is_cut_to_the_shortest_column demo_geno [0; 2]%nat
           [Fin (1 # 3); Fin (1 # 3)] demo_scan).
  reflexivity.
Defined.

Lemma py_for_Raise_only {A B : Type} (f : A → py B) (e0 : exn) l e :
  (∀ x e', f x = Raise e' → e' = e0) → py_for f l = Raise e → e = e0.
Proof.
  intros Hf. induction l as [|x l IH]; simpl; [done|].
  destruct (f x) as [y|e'] eqn:Hx.
  - destruct (py_for f l) as [k|e'']; [done|]. intros [= <-]. by apply IH.
  - intros [= <-]. by eapply Hf.
Qed.

Lemma np_take_Raise {A : Type} (a : list A) idx e :
  np_take a idx = Raise e → e = IndexError.
Proof.
  apply py_for_Raise_only. intros i e'. by destruct (a !! i); intros [= <-].
Qed.

(** X13: a result cell writes its table exactly when 'positions' has an
    entry at every index of [SNP_indices]; otherwise it stops with
    IndexError, whatever the chromosome regions and the scan are. *)
Theorem table_written_iff_positions_cover (geno : geno_file)
    (SNP_indices : list nat) (SNPs_MAF : list pyfloat) (r : scan_result) :
  ((∃ csv, save_results geno SNP_indices SNPs_MAF r = Ok csv) ↔
   Forall (λ i, i < length (g_positions geno))%nat SNP_indices) ∧
  (¬ Forall (λ i, i < length (g_positions geno))%nat SNP_indices →
   save_results geno SNP_indices SNPs_MAF r = Raise IndexError).
Proof.
  assert ((∃ csv, save_results geno SNP_indices SNPs_MAF r = Ok csv) ↔
          Forall (λ i, i < length (g_positions geno))%nat SNP_indices) as Hiff.
  { split.
    - intros [csv (chrs & poss & _ & Hposs%np_take_Ok & _)%save_results_Ok].
      apply Forall_lookup. intros n i Hi.
      destruct (Forall2_lookup_l _ _ _ _ _ Hposs Hi) as (x & _ & Hx).
      by eapply lookup_lt_Some.
    - intros Hb.
      destruct (chromosomes_of_total (g_chr_regions geno) SNP_indices)
        as [chrs Hchrs].
      destruct (np_take_total _ _ Hb) as [poss Hposs].
      eexists. apply save_results_Ok. by exists chrs, poss. }
  split; [done|]. intros Hn.
  destruct (save_results geno SNP_indices SNPs_MAF r) as [csv|e] eqn:Hsave.
  { exfalso. apply Hn, Hiff. by exists csv. }
  f_equal. unfold save_results in Hsave.
  destruct (chromosomes_of_total (g_chr_regions geno) SNP_indices)
    as [chrs Hchrs].
  rewrite Hchrs in Hsave. simpl in Hsave.
  destruct (np_take (g_positions geno) SNP_indices) as [poss|e'] eqn:Hposs;
    [done|].
  simpl in Hsave. injection Hsave as <-. by eapply np_take_Raise.
Qed.

(** X14: the chromosome search never fails, and every chromosome number it
    gives lies between 1 and the number of regions plus one. *)
Theorem chromosome_numbers_in_range (regions : list (Z * Z))
    (SNP_indices : list nat) :
  ∃ chromosomes,
    chromosomes_of regions SNP_indices = Ok chromosomes ∧
    length chromosomes = length SNP_indices ∧
    Forall (λ c, 1 ≤ c ≤ length regions + 1)%nat chromosomes.
Proof.
  destruct (chromosomes_of_total regions SNP_indices) as [chrs Hchrs].
  exists chrs. split_and!; [done|by eapply chromosomes_of_length|].
  apply chromosomes_of_Ok in Hchrs. apply Forall_lookup. intros n c Hc.
  destruct (Forall2_lookup_r _ _ _ _ _ Hchrs Hc) as (i & _ & k & Hk & ->).
  destruct (bisect_total (regions.*2) (Z.of_nat i)) as (k' & Hk' & Hle).
  rewrite length_fmap in Hle. assert (k' = k) as -> by congruence. lia.
Qed.

Lemma filter_all {A : Type} (P : A → Prop) `{∀ x, Decision (P x)}
    (l : list A) :
  Forall P l → filter P l = l.
Proof.
  induction 1 as [|x l Hx _ IH]; [done|].
  by rewrite filter_cons_True, IH.
Qed.

Lemma filter_le_split (a : list Z) x k :
  (∀ j aj, (j < k)%nat → a !! j = Some aj → aj ≤ x) →
  (∀ j aj, (k ≤ j)%nat → a !! j = Some aj → x < aj) →
  (k ≤ length a)%nat →
  length (filter (λ e, e ≤ x) a) = k.
Proof.
  intros Hle Hgt Hk. rewrite <- (take_drop k a), filter_app, length_app.
  assert (filter (λ e, e ≤ x) (take k a) = take k a) as ->.
  { apply filter_all, Forall_forall. intros e [j He]%list_elem_of_lookup_1.
    apply lookup_take_Some in He as [He Hj]. by eapply Hle. }
  assert (filter (λ e, e ≤ x) (drop k a) = []) as ->.
  { apply filter_none, Forall_forall. intros e [j He]%list_elem_of_lookup_1.
    rewrite lookup_drop in He. apply Zlt_not_le. eapply (Hgt (k + j)%nat); [lia|done]. }
  rewrite length_take. simpl. lia.
Qed.

(** X15: with region ends in nondecreasing order, the chromosome number of
    an SNP is one more than the number of region ends at or below its
    index; an index at or beyond every end gets the number of regions plus
    one, a chromosome the metadata does not describe. *)
Theorem chromosome_counts_region_ends (regions : list (Z * Z))
    (SNP_indices : list nat) :
  ascending (regions.*2) →
  chromosomes_of regions SNP_indices =
    Ok ((λ i : nat,
           (length (filter (λ e, (e ≤ Z.of_nat i)%Z) (regions.*2)) + 1)%nat)
        <$> SNP_indices).
Proof.
  intros Hasc. apply chromosomes_of_Ok.
  apply Forall2_fmap_r, Forall_Forall2_diag, Forall_forall. intros i _.
  destruct (bisect_spec (regions.*2) (Z.of_nat i) Hasc)
    as (k & Hk & Hlen & Hle & Hgt).
  exists k. split; [done|]. by rewrite (filter_le_split _ _ k).
Qed.

Lemma chromosome_counts_region_ends_witness :
  chromosomes_of (g_chr_regions demo_geno) [0; 2; 3; 7]%nat =
    Ok ((λ i : nat,
           (length (filter (λ e, (e ≤ Z.of_nat i)%Z)
                           ((g_chr_regions demo_geno).*2)) + 1)%nat)
        <$> [0; 2; 3; 7]%nat).
Proof.
  apply (chromosome_counts_region_ends (g_chr_regions demo_geno)
           [0; 2; 3; 7]%nat).
  apply (contiguous_ascending _ 0). simpl. lia.
Defined.

(** ** The cutoff and the coding of the alleles *)

Lemma np_where_from_sublist k mask mask' :
  Forall2 (λ b' b : bool, b' = true → b = true) mask' mask →
  np_where_from k mask' `sublist_of` np_where_from k mask.
Proof.
  intros H. revert k. induction H as [|b' b mask' mask Hb _ IH]; intros k.
  - constructor.
  - simpl. destruct b', b; try done.
    + by apply sublist_skip.
    + by discriminate Hb.
    + by apply sublist_cons.
Qed.

Lemma float_ge_mono f c c' :
  (c <= c')%Q → float_ge f c' = true → float_ge f c = true.
Proof.
  intros Hc. destruct f as [|neg|q]; simpl; [done..|].
  rewrite !Qle_bool_iff. intros Hq. by eapply Qle_trans.
Qed.

(** X16: raising the cutoff never brings an SNP in: the SNPs retained under
    the higher cutoff are among those retained under the lower one, in the
    same order. *)
Theorem higher_cutoff_retains_fewer (geno : geno_file)
    (acn_indices : list nat) (cutoff cutoff' : Q) (pG pG' : prepared_G) :
  (cutoff <= cutoff')%Q →
  prepare_G geno acn_indices cutoff = Ok pG →
  prepare_G geno acn_indices cutoff' = Ok pG' →
  pG_MAF pG' = pG_MAF pG ∧
  pG_SNP_indices pG' `sublist_of` pG_SNP_indices pG.
Proof.
  intros Hc (G0 & HG0 & HMAF & Hidx & _)%prepare_G_Ok
            (G0' & HG0' & HMAF' & Hidx' & _)%prepare_G_Ok.
  assert (G0' = G0) as -> by congruence.
  split; [congruence|]. rewrite Hidx, Hidx', HMAF, HMAF'.
  apply np_where_from_sublist, Forall2_fmap, Forall_Forall2_diag, Forall_forall.
  intros f _. by apply float_ge_mono.
Qed.

Lemma higher_cutoff_retains_fewer_witness :
  ∃ pG', prepare_G demo_geno demo_acn_indices 0.4 = Ok pG' ∧
         pG_MAF pG' = pG_MAF demo_pG ∧
         pG_SNP_indices pG' `sublist_of` pG_SNP_indices demo_pG.
Proof.
  eexists. split; [reflexivity|].
  apply (higher_cutoff_retains_fewer demo_geno demo_acn_indices 0.1 0.4).
  - done.
  - reflexivity.
  - reflexivity.
Defined.

(** X17: a cutoff above one half retains no SNP at all: [SNP_indices] and
    [SNPs_MAF] are empty and every row of [G] is empty. *)
Theorem cutoff_above_half_retains_nothing (geno : geno_file)
    (acn_indices : list nat) (maf_cutoff : Q) (pG : prepared_G) :
  (1 # 2 < maf_cutoff)%Q →
  prepare_G geno acn_indices maf_cutoff = Ok pG →
  pG_SNP_indices pG = [] ∧ pG_SNPs_MAF pG = [] ∧
  pG_G pG = replicate (length acn_indices) [].
Proof.
  intros Hc HpG.
  pose proof (prepare_G_SNPs_MAF_bounds _ _ _ _ HpG) as Hb.
  pose proof (prepare_G_SNPs_MAF_length _ _ _ _ HpG) as Hlen.
  destruct (prepare_G_Ok _ _ _ _ HpG) as (G0 & _ & _ & _ & _ & Hrows & HG).
  assert (pG_SNPs_MAF pG = []) as Hm.
  { destruct (pG_SNPs_MAF pG) as [|f mafs]; [done|exfalso].
    apply Forall_cons in Hb as [(q & _ & Hq1 & Hq2) _].
    apply (Qlt_not_le _ _ Hc). by eapply Qle_trans. }
  rewrite Hm in Hlen.
  assert (pG_SNP_indices pG = []) as Hi
    by (by destruct (pG_SNP_indices pG)).
  split_and!; [done..|].
  rewrite Hi in Hrows. injection Hrows as Hrows. rewrite HG, <- Hrows.
  clear. unfold np_transpose. generalize 0%nat.
  induction (length acn_indices) as [|n IH]; intros k; [done|].
  simpl. f_equal. apply IH.
Qed.

Lemma cutoff_above_half_retains_nothing_witness :
  ∃ pG, prepare_G demo_geno demo_acn_indices 0.6 = Ok pG ∧
        pG_SNP_indices pG = [] ∧ pG_SNPs_MAF pG = [] ∧
        pG_G pG = replicate (length demo_acn_indices) [].
Proof.
  eexists. split; [reflexivity|].
  apply (cutoff_above_half_retains_nothing demo_geno demo_acn_indices 0.6).
  - done.
  - reflexivity.
Defined.

Lemma row_sum_flip row :
  row_sum (flip_alleles row) = Z.of_nat (length row) - row_sum row.
Proof.
  unfold row_sum, flip_alleles. induction row as [|g row IH]; [done|].
  cbn [fmap list_fmap foldr length]. rewrite IH. lia.
Qed.

(** X18: the frequencies do not depend on which allele is coded 1:
    exchanging 0 and 1 in every call leaves [MAF] as it is. *)
Theorem MAF_ignores_allele_coding (ncols : nat) (G : list (list Z)) :
  Forall (λ row, length row = ncols) G →
  MAF ncols (flip_alleles <$> G) = MAF ncols G.
Proof.
  intros Hreg. rewrite !MAF_rows, <- list_fmap_compose.
  apply Forall_fmap_ext_1. eapply Forall_impl; [exact Hreg|]. simpl.
  intros row <-. f_equal. unfold row_MAC.
  rewrite row_sum_flip. lia.
Qed.

Lemma MAF_ignores_allele_coding_witness :
  MAF 3 (flip_alleles <$> [[0; 1; 0]; [1; 1; 1]; [0; 0; 1]])
  = MAF 3 [[0; 1; 0]; [1; 1; 1]; [0; 0; 1]].
Proof.
  apply (MAF_ignores_allele_coding 3 [[0; 1; 0]; [1; 1; 1]; [0; 0; 1]]).
  repeat (apply List.Forall_cons; [reflexivity|]). apply List.Forall_nil.
Defined.

(** ** The checks on arrays that are not matrices *)

(** X19: one-dimensional arrays escape the messages of the check cells.  A
    one-dimensional [Y] stops cell 4a with the IndexError of [Y.shape[1]],
    whatever [G] and [K] hold.  For a one-dimensional [K] beside matrices
    [Y] and [G] that pass their checks, cell 4c raises its ValueError only
    when the length of [K] differs from the number of accessions; when it
    is equal, the second operand of [or] reads [K.shape[1]] and the cell
    stops with IndexError. *)
Theorem checks_on_one_dimensional_arrays (r m n : nat)
    (dY dK : list (list pyfloat)) (dG : list (list Z))
    (G : pyobj (list (list Z))) (K : pyobj (list (list pyfloat))) :
  check_inputs {| var_Y := NdArray [n] dY; var_G := G; var_K := K |}
    = Raise IndexError ∧
  check_inputs {| var_Y := NdArray [r; 1%nat] dY;
                  var_G := NdArray [r; m] dG;
                  var_K := NdArray [n] dK |}
    = if decide (n = r) then Raise IndexError
      else Raise (ValueError
             ("Number of rows and columns in K must be equal to the number of accession "
              +:+ pretty r +:+ ", but got (" +:+ pretty n +:+ ",)")).
Proof.
  split; [done|].
  unfold check_inputs, check_Y, check_G, check_K. simpl.
  rewrite Nat.eqb_refl. simpl.
  destruct (decide (n = r)) as [->|Hne].
  - by rewrite Nat.eqb_refl.
  - by destruct (Nat.eqb_spec n r).
Qed.

(** ** The names of the result files *)

Lemma append_cancel_l (s t u : string) : s +:+ t = s +:+ u → t = u.
Proof. induction s as [|c s IH]; simpl; [done|]. intros [= H]. by apply IH. Qed.

(** X20: whatever the directory and the phenotype prefix are, the two result
    files have different names: the table without kinship correction never
    overwrites the table with it. *)
Theorem result_files_are_distinct (path_results pheno_pref : string) :
  output_file path_results pheno_pref ≠ output_file_nc path_results pheno_pref.
Proof.
  unfold output_file, output_file_nc.
  intros H. by do 2 apply append_cancel_l in H.
Qed.

(** * The Manhattan plot helper *)

Example demo_layout :
  ggmanhattan_layout demo_results None =
  {| cum_chr_len := [Some 0; Some 139; Some 146];
     df_pos := [Some 101; Some 146; Some 139];
     df_y := [Fin 0.5; Fin 0.01; Fin 0.2];
     df_chr_even := [1; 0; 1];
     x_breaks := [Some (139 # 2)%Q; Some (285 # 2)%Q];
     x_labels := [1; 2] |}.
Proof. vm_compute. reflexivity. Qed.

(** ** Cumulative boundaries *)

Lemma row_sum_app l1 l2 : row_sum (l1 ++ l2) = row_sum l1 + row_sum l2.
Proof.
  unfold row_sum. induction l1 as [|x l1 IH]; simpl; [done|]. rewrite IH. lia.
Qed.

Lemma row_sum_nonneg l : Forall (λ x, 0 ≤ x) l → 0 ≤ row_sum l.
Proof. unfold row_sum. induction 1; simpl; lia. Qed.

Lemma boundary_S lens n len :
  lens !! n = Some len → boundary lens (S n) = boundary lens n + len.
Proof.
  intros Hn. unfold boundary.
  rewrite (take_S_r _ _ _ Hn), row_sum_app. unfold row_sum. simpl. lia.
Qed.

Lemma boundary_le_total lens n :
  Forall (λ x, 0 ≤ x) lens → 0 ≤ boundary lens n ≤ row_sum lens.
Proof.
  intros Hpos. unfold boundary.
  pose proof (row_sum_nonneg (take n lens) (Forall_take _ _ _ Hpos)).
  pose proof (row_sum_nonneg (drop n lens) (Forall_drop _ _ _ Hpos)).
  assert (row_sum lens = row_sum (take n lens) + row_sum (drop n lens)) as ->
    by by rewrite <- row_sum_app, take_drop.
  lia.
Qed.

Lemma boundary_mono lens n m :
  Forall (λ x, 0 ≤ x) lens → (n ≤ m)%nat →
  0 ≤ boundary lens n ≤ boundary lens m ∧ boundary lens m ≤ row_sum lens.
Proof.
  intros Hpos Hnm. split; [|by apply boundary_le_total].
  pose proof (boundary_le_total (take m lens) n (Forall_take _ _ _ Hpos)) as H.
  unfold boundary in *. rewrite take_take in H.
  by replace (n `min` m)%nat with n in H by lia.
Qed.

Lemma r_cumsum_from_lookup lens : ∀ sum n,
  (∀ m, (m ≤ S n)%nat → - R_INT_MAX ≤ sum + boundary lens m ≤ R_INT_MAX) →
  (n < length lens)%nat →
  r_cumsum_from sum lens !! n = Some (Some (sum + boundary lens (S n))).
Proof.
  induction lens as [|v lens IH]; intros sum n Hfit Hn; simpl in Hn; [lia|].
  simpl. pose proof (Hfit 1%nat ltac:(lia)) as H1.
  unfold boundary, row_sum in H1. simpl in H1.
  destruct (decide _) as [Hov|_]; [unfold R_INT_MAX in *; lia|].
  destruct n as [|n]; simpl.
  - unfold boundary, row_sum. simpl. do 2 f_equal. lia.
  - rewrite IH; [| |lia].
    + unfold boundary, row_sum. simpl. do 2 f_equal. lia.
    + intros m Hm. specialize (Hfit (S m) ltac:(lia)).
      unfold boundary, row_sum in *. simpl in Hfit. lia.
Qed.

(** Without overflow, entry [n] of [cum.chr.len] is the boundary after [n]
    chromosomes. *)
Lemma cum_chr_len_lookup results lens n :
  lengths_fit lens → (n ≤ length lens)%nat →
  cum_chr_len (ggmanhattan_layout results (Some lens)) !! n
  = Some (Some (boundary lens n)).
Proof.
  intros [Hpos Hsum] Hn. simpl. destruct n as [|n]; [done|]. simpl.
  unfold r_cumsum. rewrite r_cumsum_from_lookup; [done| |lia].
  intros m Hm. destruct (boundary_mono lens 0 m Hpos) as [[? ?] ?]; [lia|].
  unfold R_INT_MAX in *. lia.
Qed.

(** A valid row is plotted inside the interval of its chromosome. *)
Lemma df_pos_interval results lens i r :
  lengths_fit lens →
  results !! i = Some r →
  on_chromosome lens r →
  ∃ x, df_pos (ggmanhattan_layout results (Some lens)) !! i = Some (Some x) ∧
       x = m_pos r + boundary lens (Pos.to_nat (m_chr r) - 1) ∧
       boundary lens (Pos.to_nat (m_chr r) - 1) < x
         ≤ boundary lens (Pos.to_nat (m_chr r)).
Proof.
  intros Hfit Hr (len & Hlen & Hpos).
  pose proof (lookup_lt_Some _ _ _ Hlen) as Hc.
  pose proof (cum_chr_len_lookup results lens (Pos.to_nat (m_chr r) - 1) Hfit
                ltac:(lia)) as Hcum.
  simpl in Hcum. simpl. rewrite list_lookup_fmap, Hr. simpl.
  unfold r_index. rewrite Hcum. simpl.
  eexists. split; [done|]. split; [done|].
  pose proof (boundary_S _ _ _ Hlen) as HS.
  replace (S (Pos.to_nat (m_chr r) - 1)) with (Pos.to_nat (m_chr r)) in HS by lia.
  lia.
Qed.

(** X21: with chromosome lengths that fit R's integers, every row on one of
    the chromosomes, at a position from 1 to the length of its chromosome,
    is plotted at its position plus the lengths of the chromosomes before,
    inside the interval of its chromosome. *)
Theorem manhattan_point_lies_in_its_chromosome (results : list gwas_row)
    (chr_lengths : list Z) (i : nat) (r : gwas_row) :
  lengths_fit chr_lengths →
  results !! i = Some r →
  on_chromosome chr_lengths r →
  ∃ x, df_pos (ggmanhattan_layout results (Some chr_lengths)) !! i
         = Some (Some x) ∧
       x = m_pos r + boundary chr_lengths (Pos.to_nat (m_chr r) - 1) ∧
       boundary chr_lengths (Pos.to_nat (m_chr r) - 1) < x
         ≤ boundary chr_lengths (Pos.to_nat (m_chr r)).
Proof. apply df_pos_interval. Qed.

Lemma manhattan_point_lies_in_its_chromosome_witness :
  ∃ x, df_pos (ggmanhattan_layout demo_results (Some [150; 20])) !! 1%nat
         = Some (Some x) ∧
       x = 7 + boundary [150; 20] (Pos.to_nat 2 - 1) ∧
       boundary [150; 20] (Pos.to_nat 2 - 1) < x
         ≤ boundary [150; 20] (Pos.to_nat 2).
Proof.
  apply (manhattan_point_lies_in_its_chromosome demo_results [150; 20] 1
           {| m_chr := 2; m_pos := 7; m_pval := Fin 0.01 |}).
  - split; [|vm_compute; discriminate].
    repeat (apply List.Forall_cons; [lia|]). apply List.Forall_nil.
  - reflexivity.
  - exists 20. split; [reflexivity|]. simpl. lia.
Defined.

(** X22: the plot keeps the order of the genome: of two valid rows, the one
    on the lower chromosome is plotted strictly to the left, and two rows
    of one chromosome are plotted as far apart as their positions are. *)
Theorem manhattan_keeps_genome_order (results : list gwas_row)
    (chr_lengths : list Z) (i j : nat) (r s : gwas_row) :
  lengths_fit chr_lengths →
  results !! i = Some r → on_chromosome chr_lengths r →
  results !! j = Some s → on_chromosome chr_lengths s →
  ∃ x y,
    df_pos (ggmanhattan_layout results (Some chr_lengths)) !! i = Some (Some x) ∧
    df_pos (ggmanhattan_layout results (Some chr_lengths)) !! j = Some (Some y) ∧
    ((m_chr r < m_chr s)%positive → x < y) ∧
    (m_chr r = m_chr s → x - y = m_pos r - m_pos s).
Proof.
  intros Hfit Hr Hvr Hs Hvs.
  destruct (df_pos_interval _ _ _ _ Hfit Hr Hvr) as (x & Hx & Hxe & Hxb).
  destruct (df_pos_interval _ _ _ _ Hfit Hs Hvs) as (y & Hy & Hye & Hyb).
  exists x, y. split_and!; [done|done|..].
  - intros Hlt. destruct Hfit as [Hpos _].
    destruct (boundary_mono chr_lengths (Pos.to_nat (m_chr r))
                (Pos.to_nat (m_chr s) - 1) Hpos) as [[_ ?] _]; lia.
  - intros Heq. rewrite Heq in Hxe. lia.
Qed.

Lemma manhattan_keeps_genome_order_witness :
  ∃ x y,
    df_pos (ggmanhattan_layout demo_results (Some [150; 20])) !! 0%nat
      = Some (Some x) ∧
    df_pos (ggmanhattan_layout demo_results (Some [150; 20])) !! 1%nat
      = Some (Some y) ∧
    ((1 < 2)%positive → x < y) ∧
    (1%positive = 2%positive → x - y = 101 - 7).
Proof.
  apply (manhattan_keeps_genome_order demo_results [150; 20] 0 1
           {| m_chr := 1; m_pos := 101; m_pval := Fin 0.5 |}
           {| m_chr := 2; m_pos := 7; m_pval := Fin 0.01 |}).
  - split; [|vm_compute; discriminate].
    repeat (apply List.Forall_cons; [lia|]). apply List.Forall_nil.
  - reflexivity.
  - exists 150. split; [reflexivity|]. simpl. lia.
  - reflexivity.
  - exists 20. split; [reflexivity|]. simpl. lia.
Defined.

(** ** The axis of the plot *)

Lemma r_cumsum_length lens : ∀ sum, length (r_cumsum_from sum lens) = length lens.
Proof.
  induction lens as [|v lens IH]; intros sum; simpl; [done|].
  destruct (decide _); simpl; [by rewrite length_replicate|by rewrite IH].
Qed.

(** X23: with chromosome lengths that fit R's integers, the x axis gets one
    break per chromosome, at the middle of the interval of the chromosome;
    the labels are the chromosome numbers, except that with no chromosome
    at all [1:0] yields the two labels 1 and 0 for no break. *)
Theorem axis_breaks_are_chromosome_midpoints (results : list gwas_row)
    (chr_lengths : list Z) :
  lengths_fit chr_lengths →
  let layout := ggmanhattan_layout results (Some chr_lengths) in
  length (x_breaks layout) = length chr_lengths ∧
  (∀ n, (n < length chr_lengths)%nat →
     x_breaks layout !! n =
       Some (Some ((inject_Z (boundary chr_lengths (S n))
                    + inject_Z (boundary chr_lengths n)) / 2)%Q)) ∧
  x_labels layout =
    match chr_lengths with
    | [] => [1; 0]
    | _ => Z.of_nat <$> seq 1 (length chr_lengths)
    end.
Proof.
  intros Hfit layout.
  assert (length (r_cumsum chr_lengths) = length chr_lengths) as Hlen
    by apply r_cumsum_length.
  unfold layout. simpl. rewrite Hlen, Nat.sub_0_r. split_and!.
  - rewrite length_zip_with, length_take, Hlen. simpl. lia.
  - intros n Hn.
    pose proof (cum_chr_len_lookup results chr_lengths n Hfit ltac:(lia)) as Hlo.
    pose proof (cum_chr_len_lookup results chr_lengths (S n) Hfit ltac:(lia)) as Hhi.
    simpl in Hlo, Hhi. apply lookup_zip_with_Some.
    exists (Some (boundary chr_lengths (S n))), (Some (boundary chr_lengths n)).
    split_and!; [done|done|]. by rewrite lookup_take_lt by lia.
  - by destruct chr_lengths.
Qed.

Lemma axis_breaks_are_chromosome_midpoints_witness :
  let layout := ggmanhattan_layout demo_results (Some demo_lengths) in
  length (x_breaks layout) = length demo_lengths ∧
  (∀ n, (n < length demo_lengths)%nat →
     x_breaks layout !! n =
       Some (Some ((inject_Z (boundary demo_lengths (S n))
                    + inject_Z (boundary demo_lengths n)) / 2)%Q)) ∧
  x_labels layout = Z.of_nat <$> seq 1 (length demo_lengths).
Proof.
  apply (axis_breaks_are_chromosome_midpoints demo_results demo_lengths).
  split; [|vm_compute; discriminate].
  repeat (apply List.Forall_cons; [lia|]). apply List.Forall_nil.
Defined.

(** ** Overflow of the cumulative lengths *)

Lemma r_cumsum_from_overflow lens : ∀ sum n m,
  Forall (λ l, 0 ≤ l) lens →
  R_INT_MAX < sum + boundary lens (S n) →
  (n ≤ m < length lens)%nat →
  r_cumsum_from sum lens !! m = Some None.
Proof.
  induction lens as [|v lens IH]; intros sum n m Hpos Hov Hm; simpl in Hm;
    [lia|].
  apply Forall_cons in Hpos as [Hv Hpos]. simpl.
  destruct (decide _) as [_|Hno].
  - apply (lookup_replicate_2 (S (length lens))). lia.
  - destruct n as [|n].
    + unfold boundary, row_sum in Hov. simpl in Hov. lia.
    + destruct m as [|m]; [lia|]. simpl. apply (IH _ n); [done| |lia].
      unfold boundary, row_sum in *. simpl in Hov. lia.
Qed.

(** X24: when the lengths of the first chromosomes add up beyond R's largest
    integer, [cumsum] gives [NA] from there on, and every row on a later
    chromosome gets the x coordinate [NA]. *)
Theorem long_genome_gives_NA_coordinates (results : list gwas_row)
    (chr_lengths : list Z) (n i : nat) (r : gwas_row) :
  Forall (λ l, 0 ≤ l) chr_lengths →
  R_INT_MAX < boundary chr_lengths (S n) →
  results !! i = Some r →
  (S n < Pos.to_nat (m_chr r) ≤ S (length chr_lengths))%nat →
  df_pos (ggmanhattan_layout results (Some chr_lengths)) !! i = Some None.
Proof.
  intros Hpos Hov Hr Hc. simpl. rewrite list_lookup_fmap, Hr. simpl.
  unfold r_index.
  destruct (Pos.to_nat (m_chr r) - 1)%nat as [|m] eqn:Hm; [lia|]. simpl.
  unfold r_cumsum. rewrite (r_cumsum_from_overflow _ 0 n m); [done..| |lia].
  by rewrite Z.add_0_l.
Qed.

Lemma long_genome_gives_NA_coordinates_witness :
  df_pos (ggmanhattan_layout
            [{| m_chr := 3; m_pos := 5; m_pval := Fin 0.5 |}]
            (Some [2000000000; 2000000000; 10])) !! 0%nat = Some None.
Proof.
  apply (long_genome_gives_NA_coordinates
           [{| m_chr := 3; m_pos := 5; m_pval := Fin 0.5 |}]
           [2000000000; 2000000000; 10] 1 0
           {| m_chr := 3; m_pos := 5; m_pval := Fin 0.5 |}).
  - repeat (apply List.Forall_cons; [lia|]). apply List.Forall_nil.
  - reflexivity.
  - reflexivity.
  - simpl. lia.
Defined.

(** ** Chromosome lengths taken from the table *)

Lemma foldl_max_ge l : ∀ acc,
  acc ≤ foldl Z.max acc l ∧ Forall (λ x, x ≤ foldl Z.max acc l) l.
Proof.
  induction l as [|x l IH]; intros acc; simpl; [split; [lia|constructor]|].
  destruct (IH (acc `max` x)) as [Hacc Hall]. split; [lia|].
  constructor; [lia|done].
Qed.

Lemma r_max_ge l x : x ∈ l → ∃ m, r_max l = Some m ∧ x ≤ m.
Proof.
  destruct l as [|v l]; [by intros ?%elem_of_nil|]. intros Hx.
  eexists. split; [done|].
  destruct (foldl_max_ge l v) as [Hv Hall].
  apply elem_of_cons in Hx as [->|Hx]; [done|].
  rewrite Forall_forall in Hall. by apply Hall.
Qed.

Lemma pos_seq_sorted k : ∀ s, (1 ≤ s)%nat →
  StronglySorted Pos.le (Pos.of_nat <$> seq s k).
Proof.
  induction k as [|k IH]; intros s Hs; simpl; [constructor|].
  constructor; [apply IH; lia|].
  apply Forall_fmap, Forall_forall. intros j [Hj _]%elem_of_seq. simpl.
  apply Pos2Nat.inj_le. rewrite !Nat2Pos.id by lia. lia.
Qed.

Lemma pos_seq_elem k c :
  c ∈ Pos.of_nat <$> seq 1 k ↔ (Pos.to_nat c ≤ k)%nat.
Proof.
  rewrite list_elem_of_fmap. split.
  - intros (j & -> & Hj%elem_of_seq). rewrite Nat2Pos.id; lia.
  - intros Hc. exists (Pos.to_nat c). split; [by rewrite Pos2Nat.id|].
    apply elem_of_seq. pose proof (Pos2Nat.is_pos c). lia.
Qed.

(** When the chromosomes of the table are exactly 1, ..., k, these are the
    levels, in this order. *)
Lemma r_levels_exact chrs k :
  (∀ c, c ∈ chrs ↔ (Pos.to_nat c ≤ k)%nat) →
  r_levels chrs = Pos.of_nat <$> seq 1 k.
Proof.
  intros Hchrs. unfold r_levels. apply (StronglySorted_unique_strong Pos.le).
  - intros x1 x2 _ _. apply Pos.le_antisym.
  - apply StronglySorted_merge_sort; apply _.
  - by apply pos_seq_sorted.
  - rewrite merge_sort_Permutation. apply NoDup_Permutation.
    + apply NoDup_remove_dups.
    + apply NoDup_fmap_2_strong; [|apply NoDup_seq].
      intros i j [Hi _]%elem_of_seq [Hj _]%elem_of_seq Heq.
      apply Nat2Pos.inj in Heq; lia.
    + intros c. by rewrite elem_of_remove_dups, pos_seq_elem.
Qed.

Lemma omap_total_lookup {A B : Type} (f : A → option B) (l : list A) : ∀ n,
  Forall (λ x, is_Some (f x)) l → omap f l !! n = l !! n ≫= f.
Proof.
  induction l as [|x l IH]; intros n Hall; [done|].
  apply Forall_cons in Hall as [[y Hy] Hall]. csimpl. rewrite Hy.
  destruct n as [|n]; simpl; [done|]. by apply IH.
Qed.

(** With the chromosomes 1, ..., k all present, [tapply] gives one length
    per chromosome, and no row lies beyond the length of its chromosome. *)
Lemma tapply_max_covers results k r :
  (∀ c, c ∈ m_chr <$> results ↔ (Pos.to_nat c ≤ k)%nat) →
  r ∈ results →
  ∃ len, tapply_max results !! (Pos.to_nat (m_chr r) - 1)%nat = Some len ∧
         m_pos r ≤ len.
Proof.
  intros Hchrs Hr. unfold tapply_max.
  rewrite (r_levels_exact _ k Hchrs).
  assert (∀ c, c ∈ m_chr <$> results →
               ∀ r', r' ∈ results → m_chr r' = c →
               ∃ len, r_max (m_pos <$> filter (λ r0, m_chr r0 = c) results)
                      = Some len ∧ m_pos r' ≤ len) as Hgroup.
  { intros c _ r' Hr' Hc. apply r_max_ge, list_elem_of_fmap.
    exists r'. split; [done|]. by apply list_elem_of_filter. }
  assert (m_chr r ∈ m_chr <$> results) as Hin
    by (apply list_elem_of_fmap; by exists r).
  pose proof (proj1 (Hchrs _) Hin) as Hk. pose proof (Pos2Nat.is_pos (m_chr r)).
  rewrite omap_total_lookup.
  - rewrite list_lookup_fmap, lookup_seq_lt by lia. simpl.
    replace (S (Pos.to_nat (m_chr r) - 1)) with (Pos.to_nat (m_chr r)) by lia.
    rewrite Pos2Nat.id. by apply (Hgroup _ Hin).
  - apply Forall_forall. intros c Hc%pos_seq_elem%Hchrs.
    pose proof Hc as (r' & Hr'c & Hr')%list_elem_of_fmap.
    destruct (Hgroup c Hc r' Hr' (eq_sym Hr'c)) as (len & -> & _). by eexists.
Qed.

Lemma tapply_max_positive results :
  Forall (λ r, 0 < m_pos r) results → Forall (λ l, 0 ≤ l) (tapply_max results).
Proof.
  intros Hpos. unfold tapply_max. apply Forall_forall.
  intros len (c & _ & Hlen)%list_elem_of_omap.
  destruct (filter (λ r, m_chr r = c) results) as [|r g] eqn:Hg; [done|].
  assert (r ∈ results) as Hr.
  { apply (list_elem_of_filter (λ r, m_chr r = c)). rewrite Hg. by left. }
  rewrite Forall_forall in Hpos. specialize (Hpos r Hr).
  rewrite fmap_cons in Hlen. simpl in Hlen. injection Hlen as <-.
  destruct (foldl_max_ge (m_pos <$> g) (m_pos r)). lia.
Qed.

(** X25: without [chr.lengths], on a table whose chromosomes are exactly
    1, ..., k, whose positions are positive and whose largest positions add
    up within R's integers, every row is plotted inside the interval of its
    chromosome, the length of a chromosome being its largest position. *)
Theorem default_lengths_place_every_point (results : list gwas_row)
    (k i : nat) (r : gwas_row) :
  (∀ c, c ∈ m_chr <$> results ↔ (Pos.to_nat c ≤ k)%nat) →
  Forall (λ r, 0 < m_pos r) results →
  row_sum (tapply_max results) ≤ R_INT_MAX →
  results !! i = Some r →
  ∃ x, df_pos (ggmanhattan_layout results None) !! i = Some (Some x) ∧
       boundary (tapply_max results) (Pos.to_nat (m_chr r) - 1) < x
         ≤ boundary (tapply_max results) (Pos.to_nat (m_chr r)).
Proof.
  intros Hchrs Hpos Hsum Hr.
  assert (r ∈ results) as Hin by by eapply list_elem_of_lookup_2.
  destruct (tapply_max_covers results k r Hchrs Hin) as (len & Hlen & Hle).
  destruct (df_pos_interval results (tapply_max results) i r)
    as (x & Hx & _ & Hb); [|done| |by exists x].
  - split; [by apply tapply_max_positive|done].
  - exists len. split; [done|].
    rewrite Forall_forall in Hpos. specialize (Hpos r Hin). lia.
Qed.

Lemma default_lengths_place_every_point_witness :
  ∃ x, df_pos (ggmanhattan_layout demo_results None) !! 1%nat
         = Some (Some x) ∧
       boundary (tapply_max demo_results) (Pos.to_nat 2 - 1) < x
         ≤ boundary (tapply_max demo_results) (Pos.to_nat 2).
Proof.
  apply (default_lengths_place_every_point demo_results 2 1
           {| m_chr := 2; m_pos := 7; m_pval := Fin 0.01 |}).
  - intros c. change (m_chr <$> demo_results) with [1; 2; 1]%positive.
    rewrite !elem_of_cons, elem_of_nil. lia.
  - repeat (apply List.Forall_cons; [simpl; lia|]). apply List.Forall_nil.
  - vm_compute. discriminate.
  - reflexivity.
Defined.
